(** * Chat front end: session registry, message store and title search

    A shallow embedding of the three pieces of logic of the chat front end:

    - [useChatListStore.ts]: the ordered list of chat sessions shown in the
      sidebar (the "Session Registry");
    - [useChatStore.ts]: the active chat id and the messages of every chat
      (the "Message Store"), whose actions also call into the list store;
    - [SearchModal.tsx]: [normalize], [scoreMatch] and [searchChats].

    Conventions of the embedding.

    - A JavaScript string is a Rocq [string]; each [ascii] stands for one
      UTF-16 code unit of value below 256.  White space and lower-casing are
      those of ECMAScript restricted to that range.
    - A JavaScript number that holds an integer (a score, [Date.now()]) is a
      [Z].
    - [messagesByChatId], a plain object used as a dictionary, is a
      [gmap string (list Message)]; a missing property reads as [None]
      ([undefined]).  These are the object's own properties: a read
      [messagesByChatId[id]] that finds none goes on to [Object.prototype],
      whose members ([toString], [constructor], ...) every plain object
      inherits; [ChatStore.read] is that read, and a value of the mapping is
      either an array of messages or such a member, which the code stores
      when it copies what it read.
    - [crypto.randomUUID()] and [Date.now()] are the only sources of
      non-determinism: an action that calls them takes the values they return
      as the arguments [uuid] and [now].
    - The two zustand stores are global singletons; an action of the message
      store that reaches into the list store is a function on the pair of
      both states, [World]. *)

From Stdlib Require Import ZArith Lia Ascii String Sorted DecimalString DecimalZ DecimalFacts.
From stdpp Require Import gmap strings list fin_maps.

Local Open Scope string_scope.

(** ** JavaScript string primitives *)

Module JS.

(** [WhiteSpace] and [LineTerminator] code units below 256: TAB, LF, VT, FF,
    CR, SP and NBSP.  [String.prototype.trim] strips exactly these and the
    regular expression class [\s] matches exactly these. *)
Definition isWhiteSpace (c : ascii) : bool :=
  let n := N_of_ascii c in
  ((9 <=? n) && (n <=? 13) || (n =? 32) || (n =? 160))%N.

(** Simple lower-case mapping of one code unit below 256: [A-Z] and the
    Latin-1 capitals U+00C0..U+00DE (U+00D7, the multiplication sign,
    excepted) move up by 32. *)
Definition lowerChar (c : ascii) : ascii :=
  let n := N_of_ascii c in
  if ((65 <=? n) && (n <=? 90) ||
      (192 <=? n) && (n <=? 222) && negb (n =? 215))%N
  then ascii_of_N (n + 32) else c.

(** [s.toLowerCase()] *)
Fixpoint toLowerCase (s : string) : string :=
  match s with
  | EmptyString => EmptyString
  | String c s' => String (lowerChar c) (toLowerCase s')
  end.

Fixpoint trimStart (s : string) : string :=
  match s with
  | EmptyString => EmptyString
  | String c s' => if isWhiteSpace c then trimStart s' else s
  end.

(** Strips trailing white space: a white-space unit is dropped when
    everything after it has been dropped. *)
Fixpoint trimEnd (s : string) : string :=
  match s with
  | EmptyString => EmptyString
  | String c s' =>
      match trimEnd s' with
      | EmptyString => if isWhiteSpace c then EmptyString else String c EmptyString
      | t => String c t
      end
  end.

(** [s.trim()] *)
Definition trim (s : string) : string := trimEnd (trimStart s).

(** [text.startsWith(token)] *)
Fixpoint startsWith (text token : string) : bool :=
  match token, text with
  | EmptyString, _ => true
  | String _ _, EmptyString => false
  | String a token', String b text' =>
      if Ascii.eqb a b then startsWith text' token' else false
  end.

(** [text.includes(token)]: the token starts at some position of the
    text. *)
Fixpoint includes (text token : string) : bool :=
  startsWith text token ||
  match text with
  | EmptyString => false
  | String _ text' => includes text' token
  end.

(** [s.split(/\s+/)].  [cur] holds the code units of the piece being read,
    latest first; [inSep] tells that the previous code unit was white space,
    so that a run of white space separates only once.  An empty string
    yields one empty piece, and a leading or trailing run yields an empty
    first or last piece, as in ECMAScript. *)
Fixpoint splitWs (s : string) (cur : list ascii) (inSep : bool) : list string :=
  match s with
  | EmptyString => [string_of_list_ascii (rev cur)]
  | String c s' =>
      if isWhiteSpace c then
        if inSep then splitWs s' cur true
        else string_of_list_ascii (rev cur) :: splitWs s' [] true
      else splitWs s' (c :: cur) false
  end.

Definition split_ws (s : string) : list string := splitWs s [] false.

(** [s.slice(start, end)] for non-negative [start] and [end]: the code units
    at positions [start] (included) to [end] (excluded), both clamped to the
    length of [s]. *)
Definition slice (s : string) (start end_ : nat) : string :=
  String.substring start (end_ - start) s.

(** Truthiness of a [string | null] value: [null] and the empty string are
    falsy. *)
Definition truthy (v : option string) : bool :=
  match v with
  | None => false
  | Some EmptyString => false
  | Some (String _ _) => true
  end.

(** The names of the properties a plain object inherits from
    [Object.prototype]. *)
Definition objectPrototypeKeys : list string :=
  ["constructor"; "__defineGetter__"; "__defineSetter__"; "hasOwnProperty";
   "__lookupGetter__"; "__lookupSetter__"; "isPrototypeOf";
   "propertyIsEnumerable"; "toString"; "valueOf"; "__proto__";
   "toLocaleString"].

(** [id] names an inherited property. *)
Definition inherited (id : string) : bool :=
  existsb (String.eqb id) objectPrototypeKeys.
Global Arguments inherited : simpl never.

(** [.length] of the inherited member [id]: the number of parameters of the
    function; [None] ([undefined]) for [__proto__], which reads as
    [Object.prototype] itself, an object without [length]. *)
Definition memberLength (id : string) : option Z :=
  if String.eqb id "toString" || String.eqb id "valueOf"
     || String.eqb id "toLocaleString" then Some 0%Z
  else if String.eqb id "__defineGetter__" || String.eqb id "__defineSetter__"
  then Some 2%Z
  else if String.eqb id "__proto__" then None
  else if inherited id then Some 1%Z
  else None.
Global Arguments memberLength : simpl never.

(** The exception raised by a property access on [undefined], by a call of
    something that is not a function and by spreading something that is
    not iterable. *)
Inductive Error : Type := TypeError.

(** Outcome of a call that may throw. *)
Inductive completion (A : Type) : Type :=
| Normal (a : A)
| Throw (e : Error).
Arguments Normal {A} a.
Arguments Throw {A} e.

(** Outcome of a call that may throw after it has had effects; either way
    [a] is the state the call leaves behind. *)
Inductive outcome (A : Type) : Type :=
| Returned (a : A)
| Raised (e : Error) (a : A).
Arguments Returned {A} a.
Arguments Raised {A} e a.

Definition after {A : Type} (r : outcome A) : A :=
  match r with
  | Returned a => a
  | Raised _ a => a
  end.

End JS.

(** ** useChatListStore.ts *)

Record ChatSession : Type := mkChatSession {
  cs_id : string;
  cs_title : string;
  cs_createdAt : Z
}.

Module ChatList.

(** [{ ...c, title }] *)
Definition with_title (c : ChatSession) (title : string) : ChatSession :=
  {| cs_id := cs_id c; cs_title := title; cs_createdAt := cs_createdAt c |}.

(** [addChat]: [chats: [chat, ...state.chats]] *)
Definition addChat (chat : ChatSession) (chats : list ChatSession) : list ChatSession :=
  chat :: chats.

(** [renameChat]: [state.chats.map((c) => c.id === id ? { ...c, title } : c)] *)
Definition renameChat (id title : string) (chats : list ChatSession) : list ChatSession :=
  map (fun c => if String.eqb (cs_id c) id then with_title c title else c) chats.

(** [clearAll] *)
Definition clearAll (chats : list ChatSession) : list ChatSession := [].

(** [deleteChat]: [state.chats.filter((c) => c.id !== id)] *)
Definition deleteChat (id : string) (chats : list ChatSession) : list ChatSession :=
  List.filter (fun c => negb (String.eqb (cs_id c) id)) chats.

(** The title the registry shows for [id]: that of the first entry with
    this id, if there is one. *)
Definition titleOf (id : string) (chats : list ChatSession) : option string :=
  cs_title <$> List.find (fun c => String.eqb (cs_id c) id) chats.

Definition registered (id : string) (chats : list ChatSession) : Prop :=
  Exists (fun c => cs_id c = id) chats.

End ChatList.

(** ** useChatStore.ts *)

Inductive Role : Type := user | assistant.

(** Modelled from the spec: the [Message] type of [types/chat], which the
    store imports and whose declaration is not among the sources.  The spec
    gives it the fields [id], [role] (["user"] or ["assistant"]), [content]
    and [timestamp]; the composer builds messages with just these fields. *)
Record Message : Type := mkMessage {
  msg_id : string;
  msg_role : Role;
  msg_content : string;
  msg_timestamp : Z
}.

(** A value of the mapping: an array of messages, or the member of
    [Object.prototype] of the given name (a function, or for [__proto__]
    the prototype object), which is neither an array nor iterable. *)
Inductive Stored : Type :=
| Messages (msgs : list Message)
| Member (key : string).

(** State of the message store; [messagesByChatId] holds the own properties
    of the object. *)
Record ChatState : Type := mkChatState {
  activeChatId : option string;
  messagesByChatId : gmap string Stored
}.

(** Both stores together. *)
Record World : Type := mkWorld {
  chats : list ChatSession;
  chat : ChatState
}.

Module ChatStore.

Import JS.

(** Initial state of both stores. *)
Definition init : World :=
  {| chats := []; chat := {| activeChatId := None; messagesByChatId := ∅ |} |}.

(** [{ ...msg, content }] *)
Definition with_content (msg : Message) (content : string) : Message :=
  {| msg_id := msg_id msg; msg_role := msg_role msg;
     msg_content := content; msg_timestamp := msg_timestamp msg |}.

(** [obj[id]] on the mapping: the own property if there is one, else the
    inherited member if [id] names one, else [undefined]. *)
Definition read (obj : gmap string Stored) (id : string) : option Stored :=
  match obj !! id with
  | Some v => Some v
  | None => if inherited id then Some (Member id) else None
  end.

(** [state.messagesByChatId[id] || []]: arrays, functions and objects are
    truthy, so the default is taken for [undefined] only. *)
Definition messagesOr (st : ChatState) (id : string) : Stored :=
  default (Messages []) (read (messagesByChatId st) id).

(** [messages.length === 0] *)
Definition lengthIsZero (messages : Stored) : bool :=
  match messages with
  | Messages msgs => (length msgs =? 0)%nat
  | Member key =>
      match memberLength key with
      | Some n => (n =? 0)%Z
      | None => false
      end
  end.

Definition new_chat (id : string) (now : Z) : ChatSession :=
  {| cs_id := id; cs_title := "New Chat"; cs_createdAt := now |}.

(** [createNewChat]; [uuid] is the result of [crypto.randomUUID()] and
    [now] that of [Date.now()].  Returns the new state and the id. *)
Definition createNewChat (uuid : string) (now : Z) (w : World) : World * string :=
  let id := uuid in
  let chats1 := ChatList.addChat (new_chat id now) (chats w) in
  ({| chats := chats1;
      chat := {| activeChatId := Some id;
                 messagesByChatId :=
                   <[id := Messages []]> (messagesByChatId (chat w)) |} |},
   id).

(** [setActiveChat] *)
Definition setActiveChat (id : string) (w : World) : World :=
  {| chats := chats w;
     chat := {| activeChatId := Some id;
                messagesByChatId :=
                  <[id := messagesOr (chat w) id]> (messagesByChatId (chat w)) |} |}.

Definition is_user (r : Role) : bool :=
  match r with user => true | assistant => false end.

(** [addMessage]; [uuid] and [now] are read only when [chatId] is falsy
    ([if (!id)]), in which case the new chat is added to the list store
    before anything else happens.  The list store is written inside the
    updater, before the new state is built: when [[...messages, message]]
    throws because [messages] is not an array, the message store is left as
    it was and the list store as the updater left it. *)
Definition addMessage (uuid : string) (now : Z)
    (chatId : option string) (message : Message) (w : World) : outcome World :=
  let '(id, chats1) :=
    if truthy chatId then (default EmptyString chatId, chats w)
    else (uuid, ChatList.addChat (new_chat uuid now) (chats w)) in
  let messages := messagesOr (chat w) id in
  let chats2 :=
    if is_user (msg_role message) && lengthIsZero messages
    then ChatList.renameChat id (slice (msg_content message) 0 40) chats1
    else chats1 in
  match messages with
  | Messages msgs =>
      Returned
        {| chats := chats2;
           chat := {| activeChatId := Some id;
                      messagesByChatId :=
                        <[id := Messages (msgs ++ [message])%list]>
                          (messagesByChatId (chat w)) |} |}
  | Member _ => Raised TypeError {| chats := chats2; chat := chat w |}
  end.

(** [updateMessage].  The updater returns [state] itself for a falsy
    [chatId]; otherwise it reads [state.messagesByChatId[chatId]] and calls
    [.map] on it, which throws a [TypeError] when the read gives [undefined]
    or something that is not an array.  The object it returns has the field
    [messagesByChatId] only, which zustand merges into the state:
    [activeChatId] is kept. *)
Definition updateMessage (chatId : option string) (id content : string)
    (w : World) : completion World :=
  if negb (truthy chatId) then Normal w
  else
    let cid := default EmptyString chatId in
    match read (messagesByChatId (chat w)) cid with
    | Some (Messages msgs) =>
        Normal
          {| chats := chats w;
             chat := {| activeChatId := activeChatId (chat w);
                        messagesByChatId :=
                          <[cid := Messages
                                     (map (fun msg =>
                                             if String.eqb (msg_id msg) id
                                             then with_content msg content
                                             else msg) msgs)]>
                            (messagesByChatId (chat w)) |} |}
    | _ => Throw TypeError
    end.

(** [clearChat] *)
Definition clearChat (chatId : string) (w : World) : World :=
  let copy := delete chatId (messagesByChatId (chat w)) in
  {| chats := chats w;
     chat := {| activeChatId := None; messagesByChatId := copy |} |}.

(** [clearAllChats] *)
Definition clearAllChats (w : World) : World :=
  {| chats := chats w;
     chat := {| activeChatId := None; messagesByChatId := ∅ |} |}.

(** The state of the stores once a call has completed: an exception thrown
    inside the updater leaves the store as it was. *)
Definition state_after (w : World) (r : completion World) : World :=
  match r with
  | Normal w' => w'
  | Throw _ => w
  end.

(** The active pointer, when set, is a key of the mapping. *)
Definition active_known (st : ChatState) : Prop :=
  match activeChatId st with
  | Some id => is_Some (messagesByChatId st !! id)
  | None => True
  end.

End ChatStore.

(** ** SearchModal.tsx: the search algorithm *)

Module Search.

Import JS.

(** [normalize]: [s.toLowerCase().trim()] *)
Definition normalize (s : string) : string := trim (toLowerCase s).

(** [scoreMatch]: the loop over the tokens, with the running [score]. *)
Fixpoint scoreLoop (text : string) (tokens : list string) (score : Z) : Z :=
  match tokens with
  | [] => score
  | token :: rest =>
      let score1 := if includes text token then (score + 10)%Z else score in
      let score2 := if startsWith text token then (score1 + 15)%Z else score1 in
      scoreLoop text rest score2
  end.

Definition scoreMatch (text : string) (tokens : list string) : Z :=
  scoreLoop text tokens 0.

(** The objects [{ chat, score }] built by the first [.map]. *)
Record Scored : Type := mkScored { r_chat : ChatSession; r_score : Z }.

(** [Array.prototype.sort(compare)].  ECMAScript requires the sort to be
    stable and, for a consistent comparison function, to return the elements
    in an order where [compare a b <= 0] for [a] before [b].  The embedding
    is the insertion sort that meets this: an element goes in front of the
    first element of the sorted rest that it does not have to follow. *)
Fixpoint sort_insert {A : Type} (compare : A -> A -> Z) (x : A) (l : list A) : list A :=
  match l with
  | [] => [x]
  | y :: l' =>
      if (compare x y <=? 0)%Z then x :: y :: l' else y :: sort_insert compare x l'
  end.

Fixpoint sort {A : Type} (compare : A -> A -> Z) (l : list A) : list A :=
  match l with
  | [] => []
  | x :: l' => sort_insert compare x (sort compare l')
  end.

(** [searchChats] *)
Definition searchChats (query : string) (chats : list ChatSession) : list ChatSession :=
  if negb (truthy (Some (trim query))) then chats
  else
    let tokens := split_ws (normalize query) in
    map r_chat
      (sort (fun a b => (r_score b - r_score a)%Z)
         (List.filter (fun r => (0 <? r_score r)%Z)
            (map (fun chat =>
                    {| r_chat := chat;
                       r_score := scoreMatch (normalize (cs_title chat)) tokens |})
               chats))).

End Search.

(** ** Notions used to state the properties *)

Module Spec.

Import JS.

(** The session an [addMessage] call appends to: the given id when it is
    truthy, the generated one otherwise. *)
Definition target (uuid : string) (chatId : option string) : string :=
  if truthy chatId then default EmptyString chatId else uuid.

(** "The first [n] characters" of a string. *)
Definition first_chars (n : nat) (s : string) : string :=
  string_of_list_ascii (take n (list_ascii_of_string s)).

(** The generated id is new to both stores. *)
Definition fresh (uuid : string) (w : World) : Prop :=
  messagesByChatId (chat w) !! uuid = None /\ ~ ChatList.registered uuid (chats w).

(** The empty string, the "no session" sentinel of the interface, holds no
    messages. *)
Definition no_sentinel_messages (w : World) : Prop :=
  ChatStore.messagesOr (chat w) EmptyString = Messages [].

(** One action of either store.  [crypto.randomUUID()] returns a
    36-character string, never the empty one. *)
Inductive step : World -> World -> Prop :=
| step_createNewChat uuid now w :
    uuid <> EmptyString -> step w (ChatStore.createNewChat uuid now w).1
| step_setActiveChat id w : step w (ChatStore.setActiveChat id w)
| step_addMessage uuid now chatId m w :
    uuid <> EmptyString ->
    step w (after (ChatStore.addMessage uuid now chatId m w))
| step_updateMessage chatId id content w :
    step w (ChatStore.state_after w (ChatStore.updateMessage chatId id content w))
| step_clearChat id w : step w (ChatStore.clearChat id w)
| step_clearAllChats w : step w (ChatStore.clearAllChats w)
| step_addChat c w :
    step w {| chats := ChatList.addChat c (chats w); chat := chat w |}
| step_renameChat id title w :
    step w {| chats := ChatList.renameChat id title (chats w); chat := chat w |}
| step_deleteChat id w :
    step w {| chats := ChatList.deleteChat id (chats w); chat := chat w |}
| step_clearAll w :
    step w {| chats := ChatList.clearAll (chats w); chat := chat w |}.

(** States the application can be in, starting from empty stores. *)
Inductive reachable : World -> Prop :=
| reachable_init : reachable ChatStore.init
| reachable_step w w' : reachable w -> step w w' -> reachable w'.

(** Every code unit of [s] satisfies [p]. *)
Fixpoint all_chars (p : ascii -> bool) (s : string) : bool :=
  match s with
  | EmptyString => true
  | String c s' => p c && all_chars p s'
  end.

Definition wsFree (s : string) : Prop :=
  all_chars (fun c => negb (isWhiteSpace c)) s = true.

Definition allWs (s : string) : Prop := all_chars isWhiteSpace s = true.

(** [tokenized s tokens]: [s] is made of the [tokens], in this order, each
    non-empty and free of white space, with a non-empty run of white space
    between one token and the next, and nothing else. *)
Inductive tokenized : string -> list string -> Prop :=
| tokenized_last t :
    t <> EmptyString -> wsFree t -> tokenized t [t]
| tokenized_more t sep rest tokens :
    t <> EmptyString -> wsFree t ->
    sep <> EmptyString -> allWs sep ->
    tokenized rest tokens ->
    tokenized (t ++ sep ++ rest) (t :: tokens).

(** The first code unit is not white space. *)
Definition startsNonWs (s : string) : Prop :=
  match s with
  | EmptyString => False
  | String c _ => isWhiteSpace c = false
  end.

(** The last code unit is white space. *)
Fixpoint endsWs (s : string) : bool :=
  match s with
  | EmptyString => false
  | String c EmptyString => isWhiteSpace c
  | String _ s' => endsWs s'
  end.

(** The comparison function [(a, b) => key(b) - key(a)]: descending keys. *)
Definition descending {A : Type} (key : A -> Z) : A -> A -> Z :=
  fun a b => (key b - key a)%Z.

Definition substring_of (token text : string) : Prop :=
  exists pre post, text = pre ++ token ++ post.

Definition prefix_of (token text : string) : Prop :=
  exists post, text = token ++ post.

(** What one token adds to the score of a title: 10 when it is a substring,
    15 more when it is a prefix; a prefix being a substring, that is 0, 10
    or 25. *)
Inductive token_points (text token : string) : Z -> Prop :=
| points_none :
    ~ substring_of token text -> token_points text token 0
| points_substring :
    substring_of token text -> ~ prefix_of token text -> token_points text token 10
| points_prefix :
    substring_of token text -> prefix_of token text -> token_points text token 25.

(** The score of a title: the sum of what each token adds. *)
Inductive score_is (text : string) : list string -> Z -> Prop :=
| score_nil : score_is text [] 0
| score_cons token tokens p n :
    token_points text token p -> score_is text tokens n ->
    score_is text (token :: tokens) (p + n).

End Spec.

(** ** Sample data *)

Module Sample.

Definition hello : Message :=
  {| msg_id := "1700000000000"; msg_role := user;
     msg_content := "Explain the difference between a list and a finite map";
     msg_timestamp := 1700000000000 |}.

Definition reply : Message :=
  {| msg_id := "1700000000500"; msg_role := assistant;
     msg_content := "A list keeps order and duplicates.";
     msg_timestamp := 1700000000500 |}.

Definition uuid1 : string := "3b241101-e2bb-4255-8caf-4136c566a962".
Definition uuid2 : string := "7f0c2a9e-5d1b-4c3a-9e8f-0a1b2c3d4e5f".

(** Two chats [a] and [b], [a] active with one exchange. *)
Definition two_chats : World :=
  {| chats := [ {| cs_id := "b"; cs_title := "New Chat"; cs_createdAt := 20 |};
                {| cs_id := "a"; cs_title := "First"; cs_createdAt := 10 |} ];
     chat := {| activeChatId := Some "a";
                messagesByChatId :=
                  <["a" := Messages [hello; reply]]> (<["b" := Messages []]> ∅) |} |}.

(** A chat opened by its address, ["/c/xyz"], which the registry does not
    hold. *)
Definition opened_by_address : World := ChatStore.setActiveChat "xyz" ChatStore.init.

(** Two messages sent within the same millisecond carry the same id. *)
Definition hello_again : Message :=
  {| msg_id := "1700000000000"; msg_role := user;
     msg_content := "And a set?"; msg_timestamp := 1700000000000 |}.

Definition same_millisecond : World :=
  {| chats := [ {| cs_id := "a"; cs_title := "First"; cs_createdAt := 10 |} ];
     chat := {| activeChatId := Some "a";
                messagesByChatId := <["a" := Messages [hello; hello_again]]> ∅ |} |}.

(** The registry holds a session whose id is the name of an inherited
    property. *)
Definition constructor_registered : World :=
  {| chats := [ {| cs_id := "constructor"; cs_title := "New Chat";
                   cs_createdAt := 10 |} ];
     chat := {| activeChatId := None; messagesByChatId := ∅ |} |}.

Definition apple : ChatSession := mkChatSession "1" "Apple" 30.
Definition banana : ChatSession := mkChatSession "2" "Banana" 20.
Definition cabbage : ChatSession := mkChatSession "3" "Cabbage" 10.

End Sample.

(** ** The components that drive the stores *)

(** What a handler asks of the router: [navigate(path)], if it does. *)
Definition Navigation : Type := option string.

(** [ChatPage.tsx] and [ChatWindow.tsx] *)

Module ChatPage.

Import JS.

(** [activeChatId ? messagesByChatId[activeChatId] || [] : []]: the value
    both components call [messages]. *)
Definition messages (st : ChatState) : Stored :=
  if truthy (activeChatId st)
  then ChatStore.messagesOr st (default EmptyString (activeChatId st))
  else Messages [].

(** [isEmpty]: [messages.length === 0]; the "Start a new conversation"
    screen is shown. *)
Definition isEmpty (st : ChatState) : bool :=
  ChatStore.lengthIsZero (messages st).

(** What the page shows. *)
Inductive Screen : Type :=
| EmptyState
| MessageList (msgs : list Message).

(** Rendering the page: the empty state when [isEmpty], else [ChatWindow],
    which calls [messages.map] and so throws when [messages] is not an
    array. *)
Definition render (st : ChatState) : completion Screen :=
  if isEmpty st then Normal EmptyState
  else
    match messages st with
    | Messages msgs => Normal (MessageList msgs)
    | Member _ => Throw TypeError
    end.

(** The effect run for the route parameter [chatId]
    ([if (chatId) setActiveChat(chatId)]); the parameter is absent on the
    route ["/"]. *)
Definition onRoute (chatId : option string) (w : World) : World :=
  if truthy chatId then ChatStore.setActiveChat (default EmptyString chatId) w
  else w.

End ChatPage.

(** [AppSidebar.tsx]: the handlers of the "New Chat" button and of the
    "Rename" and "Delete" menu items. *)

Module Sidebar.

Import JS.

(** [const newId = createNewChat(); navigate(`/c/${newId}`)] *)
Definition onNewChat (uuid : string) (now : Z) (w : World) : World * Navigation :=
  let '(w1, newId) := ChatStore.createNewChat uuid now w in
  (w1, Some ("/c/" ++ newId)).

(** [const title = prompt("Rename chat", chat.title);
     if (title) renameChat(chat.id, title)]; [answer] is what [prompt]
    returns, [null] when the dialog is cancelled. *)
Definition onRename (answer : option string) (id : string) (w : World) : World :=
  if truthy answer
  then {| chats := ChatList.renameChat id (default EmptyString answer) (chats w);
          chat := chat w |}
  else w.

(** [deleteChat(chat.id); clearChat(chat.id); navigate("/")] *)
Definition onDelete (id : string) (w : World) : World * Navigation :=
  let w1 := {| chats := ChatList.deleteChat id (chats w); chat := chat w |} in
  let w2 := ChatStore.clearChat id w1 in
  (w2, Some "/").

End Sidebar.

(** [ChatInput.tsx]: the composer *)

Record File : Type := mkFile { file_name : string; file_size : Z }.

Module ChatInput.

Import JS.

(** The component's own state: the text typed and the files attached. *)
Record State : Type := mkState { input : string; files : list File }.

(** The values the environment hands to one [handleSubmit] call, in the
    order they are read: [crypto.randomUUID()] and [Date.now()] inside
    [createNewChat]; [Date.now()] for the message id; the time of
    [new Date()]; [crypto.randomUUID()] and [Date.now()] inside
    [addMessage]. *)
Record Env : Type := mkEnv {
  env_uuid : string;
  env_created : Z;
  env_id_time : Z;
  env_timestamp : Z;
  env_uuid' : string;
  env_created' : Z
}.

(** [n.toString()] for an integer [n] below [1e21] in absolute value: its
    decimal digits, after a minus sign when negative. *)
Definition numberToString (n : Z) : string :=
  NilZero.string_of_int (Z.to_int n).

(** [onDrop]: [setFiles((prev) => [...prev, ...acceptedFiles])] *)
Definition onDrop (acceptedFiles : list File) (st : State) : State :=
  {| input := input st; files := (files st ++ acceptedFiles)%list |}.

(** [prev.filter((_, idx) => idx !== i)], [idx] counting from [from]. *)
Fixpoint dropIndex {A : Type} (i from : nat) (l : list A) : list A :=
  match l with
  | [] => []
  | x :: l' =>
      if negb (from =? i)%nat then x :: dropIndex i (S from) l'
      else dropIndex i (S from) l'
  end.

(** The handler of the [X] button of the [i]-th file. *)
Definition removeFile (i : nat) (st : State) : State :=
  {| input := input st; files := dropIndex i 0 (files st) |}.

(** [canSend] *)
Definition canSend (isStreaming : bool) (st : State) : bool :=
  negb isStreaming &&
  ((0 <? String.length (trim (input st)))%nat || (0 <? length (files st))%nat).

(** [handleSubmit]: the stores, the component state and the navigation it
    asks for.  When [addMessage] throws, the handler is left before
    [setInput("")] and [setFiles([])]. *)
Definition handleSubmit (env : Env) (isStreaming : bool) (st : State) (w : World)
    : outcome (World * State * Navigation) :=
  if negb (canSend isStreaming st) then Returned (w, st, None)
  else
    let '(w1, chatId, nav) :=
      if negb (truthy (activeChatId (chat w))) then
        let '(w', newId) :=
          ChatStore.createNewChat (env_uuid env) (env_created env) w in
        (w', Some newId, Some ("/c/" ++ newId))
      else (w, activeChatId (chat w), None) in
    let message :=
      {| msg_id := numberToString (env_id_time env);
         msg_role := user;
         msg_content := input st;
         msg_timestamp := env_timestamp env |} in
    match
      ChatStore.addMessage (env_uuid' env) (env_created' env) chatId message w1
    with
    | Returned w2 => Returned (w2, {| input := EmptyString; files := [] |}, nav)
    | Raised e w2 => Raised e (w2, st, nav)
    end.

End ChatInput.

(** [ChatMessage.tsx]: editing a message *)

Module ChatMessage.

Import JS.

(** The component's editing state. *)
Record State : Type := mkState { isEditing : bool; editValue : string }.

(** [handleCancel]; [content] is the message as stored. *)
Definition handleCancel (content : string) (st : State) : State :=
  {| isEditing := false; editValue := content |}.

(** [handleSave] for the message [id].  The last component of the result
    holds the arguments [onResubmit] is called with, when the call is
    reached.  An exception thrown by [updateMessage] leaves the handler
    before [setIsEditing(false)]. *)
Definition handleSave (id : string) (st : State) (w : World)
    : completion (World * State * option (string * string)) :=
  let next := trim (editValue st) in
  if negb (truthy (Some next)) then Normal (w, st, None)
  else
    let activeChatId := activeChatId (chat w) in
    if negb (truthy activeChatId) then Normal (w, st, None)
    else
      match ChatStore.updateMessage activeChatId id next w with
      | Throw e => Throw e
      | Normal w1 =>
          Normal (w1, {| isEditing := false; editValue := editValue st |},
                  Some (next, id))
      end.

End ChatMessage.

(** [useAuthStore.ts] *)

Record User : Type := mkUser {
  user_id : string;
  user_name : string;
  user_email : string;
  user_picture : option string
}.

(** The auth store, the item ["auth_token"] of [localStorage] and
    [window.location.href], next to the two chat stores. *)
Record App : Type := mkApp {
  world : World;
  auth_user : option User;
  auth_token : option string;
  storage_auth_token : option string;
  location_href : string
}.

Module Auth.

(** [setAuth] *)
Definition setAuth (u : User) (token : string) (a : App) : App :=
  {| world := world a;
     auth_user := Some u;
     auth_token := Some token;
     storage_auth_token := Some token;
     location_href := location_href a |}.

(** [logout] *)
Definition logout (a : App) : App :=
  let w1 := ChatStore.clearAllChats (world a) in
  let w2 := {| chats := ChatList.clearAll (chats w1); chat := chat w1 |} in
  {| world := w2;
     auth_user := None;
     auth_token := None;
     storage_auth_token := None;
     location_href := "/login" |}.

End Auth.

(** [SearchModal.tsx]: the component around [searchChats] *)

Module SearchModal.

Import JS.

(** The component's [query] and [selectedIndex], with the flag
    [isSearchOpen] it reads from the UI store. *)
Record State : Type := mkState {
  isSearchOpen : bool;
  query : string;
  selectedIndex : Z
}.

Inductive Key : Type := ArrowDown | ArrowUp | Enter | Escape | OtherKey.

(** [results] *)
Definition results (st : State) (chats : list ChatSession) : list ChatSession :=
  Search.searchChats (query st) chats.

(** [results[selectedIndex]]: [undefined] outside the array. *)
Definition at_index {A : Type} (l : list A) (i : Z) : option A :=
  if (i <? 0)%Z then None else l !! Z.to_nat i.

(** [handleSelect]; the state is the one the handler leaves, before the
    effect on [query] puts the selection back on 0. *)
Definition handleSelect (id : string) (st : State) : State * Navigation :=
  ({| isSearchOpen := false; query := EmptyString;
      selectedIndex := selectedIndex st |},
   Some ("/c/" ++ id)).

(** [handleKeyDown] *)
Definition handleKeyDown (key : Key) (st : State) (chats : list ChatSession)
    : State * Navigation :=
  match key with
  | ArrowDown =>
      ({| isSearchOpen := isSearchOpen st; query := query st;
          selectedIndex :=
            Z.min (selectedIndex st + 1)
                  (Z.of_nat (length (results st chats)) - 1) |}, None)
  | ArrowUp =>
      ({| isSearchOpen := isSearchOpen st; query := query st;
          selectedIndex := Z.max (selectedIndex st - 1) 0 |}, None)
  | Enter =>
      match at_index (results st chats) (selectedIndex st) with
      | Some c => handleSelect (cs_id c) st
      | None => (st, None)
      end
  | Escape =>
      ({| isSearchOpen := false; query := query st;
          selectedIndex := selectedIndex st |}, None)
  | OtherKey => (st, None)
  end.

End SearchModal.

(** ** What the user interface can do to the stores *)

Module UI.

Import JS.

(** One user action, as the components wire it to the stores.  Generated ids
    are non-empty and new to both stores. *)
Inductive step : World -> World -> Prop :=
| step_new_chat uuid now w :
    uuid <> EmptyString -> Spec.fresh uuid w ->
    step w (Sidebar.onNewChat uuid now w).1
| step_rename answer id w : step w (Sidebar.onRename answer id w)
| step_delete id w : step w (Sidebar.onDelete id w).1
| step_route chatId w : step w (ChatPage.onRoute chatId w)
| step_submit env isStreaming st w :
    ChatInput.env_uuid env <> EmptyString ->
    Spec.fresh (ChatInput.env_uuid env) w ->
    step w (after (ChatInput.handleSubmit env isStreaming st w)).1.1
| step_save id st w w1 st1 r :
    ChatMessage.handleSave id st w = Normal (w1, st1, r) -> step w w1
| step_logout a w :
    world a = w -> step w (world (Auth.logout a)).

Inductive reachable : World -> Prop :=
| reachable_init : reachable ChatStore.init
| reachable_step w w' : reachable w -> step w w' -> reachable w'.

(** The message [handleSubmit] builds from the composer's text. *)
Definition submitted (env : ChatInput.Env) (st : ChatInput.State) : Message :=
  {| msg_id := ChatInput.numberToString (ChatInput.env_id_time env);
     msg_role := user;
     msg_content := ChatInput.input st;
     msg_timestamp := ChatInput.env_timestamp env |}.

(** The composer after a send. *)
Definition cleared : ChatInput.State :=
  {| ChatInput.input := EmptyString; ChatInput.files := [] |}.



(** Every stored message is a user message. *)
Definition only_user_messages (w : World) : Prop :=
  forall k msgs, messagesByChatId (chat w) !! k = Some (Messages msgs) ->
    Forall (fun m => msg_role m = user) msgs.

(** A member of [Object.prototype] is stored under its own name only. *)
Definition members_under_their_name (w : World) : Prop :=
  forall k key, messagesByChatId (chat w) !! k = Some (Member key) ->
    key = k /\ inherited k = true.

(** The invariants of the reachable states, together. *)
Definition invariant (w : World) : Prop :=
  Forall (fun i => is_Some (messagesByChatId (chat w) !! i)) (map cs_id (chats w)) /\
  NoDup (map cs_id (chats w)) /\
  ChatStore.active_known (chat w) /\
  only_user_messages w /\
  members_under_their_name w.

End UI.

(** ** More sample data *)

Module Scenario.

Definition env1 : ChatInput.Env :=
  {| ChatInput.env_uuid := Sample.uuid1; ChatInput.env_created := 100;
     ChatInput.env_id_time := 101; ChatInput.env_timestamp := 102;
     ChatInput.env_uuid' := Sample.uuid2; ChatInput.env_created' := 103 |}.

Definition draft : ChatInput.State :=
  {| ChatInput.input := "  How do I sort a list?  "; ChatInput.files := [] |}.

Definition photo : File := {| file_name := "photo.png"; file_size := 2048 |}.
Definition notes : File := {| file_name := "notes.txt"; file_size := 12 |}.

Definition signed_in : App :=
  {| world := Sample.two_chats;
     auth_user := Some (mkUser "u1" "Ada" "ada@example.org" None);
     auth_token := Some "tok";
     storage_auth_token := Some "tok";
     location_href := "/c/a" |}.

(** The stores after a first send from the empty state. *)
Definition after_first_send : World :=
  (JS.after (ChatInput.handleSubmit env1 false draft ChatStore.init)).1.1.


Definition editing : ChatMessage.State :=
  {| ChatMessage.isEditing := true;
     ChatMessage.editValue := "  How do I sort a list in place? " |}.

Definition searching : SearchModal.State :=
  {| SearchModal.isSearchOpen := true; SearchModal.query := "a";
     SearchModal.selectedIndex := 0 |}.

End Scenario.

(** * Properties *)

(** ** Session registry *)

Section ChatListFacts.

Import ChatList.

Lemma renameChat_length id title l : length (renameChat id title l) = length l.
Proof. unfold renameChat. by rewrite length_map. Qed.

Lemma renameChat_titles id title l :
  Forall (fun c => cs_id c = id -> cs_title c = title) (renameChat id title l).
Proof.
  unfold renameChat. apply Forall_forall. intros c Hc.
  apply list_elem_of_fmap in Hc as (c0 & -> & _).
  destruct (String.eqb_spec (cs_id c0) id) as [_ | Hne]; [done |].
  intros ?. contradiction.
Qed.

Lemma renameChat_ids id title l :
  map cs_id (renameChat id title l) = map cs_id l.
Proof.
  unfold renameChat. induction l as [| c l IH]; [done |].
  cbn. rewrite IH. by destruct (String.eqb (cs_id c) id).
Qed.

Lemma renameChat_unregistered id title l :
  ~ registered id l -> renameChat id title l = l.
Proof.
  unfold registered, renameChat. induction l as [| c l IH]; [done |].
  intros Hn. cbn.
  destruct (String.eqb_spec (cs_id c) id) as [He | _].
  - exfalso. apply Hn. by left.
  - f_equal. apply IH. intros H. apply Hn. by right.
Qed.

Lemma titleOf_renameChat_registered id title l :
  registered id l -> titleOf id (renameChat id title l) = Some title.
Proof.
  unfold registered, titleOf, renameChat.
  induction 1 as [c l Hc | c l _ IH]; cbn.
  - rewrite <- Hc. rewrite String.eqb_refl. cbn. by rewrite String.eqb_refl.
  - destruct (String.eqb_spec (cs_id c) id) as [He | Hne]; cbn.
    + by rewrite He, String.eqb_refl.
    + destruct (String.eqb_spec (cs_id c) id); [done |]. apply IH.
Qed.

Lemma registered_titleOf id l : registered id l <-> is_Some (titleOf id l).
Proof.
  unfold registered, titleOf. induction l as [| c l IH]; cbn.
  - split; [intros H; inversion H | intros [? ?]; done].
  - destruct (String.eqb_spec (cs_id c) id) as [He | Hne]; cbn.
    + split; [eauto | intros _; by left].
    + rewrite <- IH. split; [| by right].
      intros H. inversion H; subst; [done | assumption].
Qed.

End ChatListFacts.

(** ** Message store *)

Section ChatStoreFacts.

Import JS ChatList ChatStore Spec.

Lemma slice_first_chars s n : slice s 0 n = first_chars n s.
Proof.
  unfold slice, first_chars. rewrite Nat.sub_0_r.
  revert n. induction s as [| c s IH]; intros [| n]; cbn; try done.
  by rewrite IH.
Qed.

Lemma truthy_Some_iff (s : string) : truthy (Some s) = true <-> s <> EmptyString.
Proof. destruct s; cbn; split; congruence. Qed.

Lemma truthy_target uuid chatId :
  truthy chatId = true -> chatId = Some (target uuid chatId).
Proof. unfold target. intros H. rewrite H. by destruct chatId. Qed.

Lemma messagesOr_own st k v :
  messagesByChatId st !! k = Some v -> messagesOr st k = v.
Proof. unfold messagesOr, read. by intros ->. Qed.

Lemma messagesOr_missing st k :
  messagesByChatId st !! k = None -> inherited k = false ->
  messagesOr st k = Messages [].
Proof. unfold messagesOr, read. by intros -> ->. Qed.

Lemma messagesOr_inherited st k :
  messagesByChatId st !! k = None -> inherited k = true ->
  messagesOr st k = Member k.
Proof. unfold messagesOr, read. by intros -> ->. Qed.

(** [addMessage], with the target and the registry it starts from named. *)
Lemma addMessage_eq uuid now chatId m w :
  addMessage uuid now chatId m w =
    let s := target uuid chatId in
    let before := if truthy chatId then chats w
                  else new_chat uuid now :: chats w in
    let chats2 :=
      if is_user (msg_role m) && lengthIsZero (messagesOr (chat w) s)
      then renameChat s (first_chars 40 (msg_content m)) before
      else before in
    match messagesOr (chat w) s with
    | Messages msgs =>
        Returned
          {| chats := chats2;
             chat := {| activeChatId := Some s;
                        messagesByChatId :=
                          <[s := Messages (msgs ++ [m])%list]>
                            (messagesByChatId (chat w)) |} |}
    | Member _ => Raised TypeError {| chats := chats2; chat := chat w |}
    end.
Proof.
  unfold addMessage, target, addChat. rewrite <- slice_first_chars.
  by destruct (truthy chatId).
Qed.

Lemma titleOf_head id title created l :
  titleOf id ({| cs_id := id; cs_title := title; cs_createdAt := created |} :: l)
  = Some title.
Proof. unfold titleOf. cbn. by rewrite String.eqb_refl. Qed.

(** C1 as the code has it (auto-rename rule).  Let [s] be the session an
    [addMessage] call targets and [before] the registry as it stands when
    the append takes place: the registry of the state, with the entry
    [{ id, "New Chat", now }] in front when the chat id was null or empty.
    - If the message is a user message and [s] had no messages (an empty
      sequence, or no entry while [s] does not name an inherited property),
      the call returns and the registry is [before] with every entry of [s]
      retitled to the first 40 characters of the content and every other
      entry as it was: the registry shows that title for [s] when [s] is
      registered, and is unchanged when it is not.
    - If [s] had a message, the call returns and the registry is [before].
    - If the message is an assistant message, the registry is [before],
      however the call ends. *)
Theorem addMessage_auto_rename uuid now chatId m w :
  let s := target uuid chatId in
  let before :=
    match chatId with
    | Some (String _ _) => chats w
    | _ => {| cs_id := uuid; cs_title := "New Chat"; cs_createdAt := now |}
           :: chats w
    end in
  let title := first_chars 40 (msg_content m) in
  (msg_role m = user ->
   messagesByChatId (chat w) !! s = Some (Messages []) \/
   (messagesByChatId (chat w) !! s = None /\ inherited s = false) ->
   exists w',
     addMessage uuid now chatId m w = Returned w' /\
     length (chats w') = length before /\
     Forall2 (fun c c' =>
                cs_id c' = cs_id c /\ cs_createdAt c' = cs_createdAt c /\
                cs_title c' = if decide (cs_id c = s) then title else cs_title c)
             before (chats w') /\
     (registered s before -> titleOf s (chats w') = Some title) /\
     (~ registered s before -> chats w' = before)) /\
  (forall x msgs,
     messagesByChatId (chat w) !! s = Some (Messages (x :: msgs)) ->
     exists w', addMessage uuid now chatId m w = Returned w' /\ chats w' = before) /\
  (msg_role m = assistant ->
     chats (after (addMessage uuid now chatId m w)) = before).
Proof.
  intros s before title.
  assert ((if truthy chatId then chats w else new_chat uuid now :: chats w) = before)
    as Hbefore by (by destruct chatId as [[|] |]).
  rewrite addMessage_eq. cbn zeta. fold s title. rewrite Hbefore.
  split; [| split].
  - intros Hrole Hempty.
    assert (messagesOr (chat w) s = Messages []) as ->.
    { destruct Hempty as [H | [H1 H2]];
        [by apply messagesOr_own | by apply messagesOr_missing]. }
    rewrite Hrole. cbn [is_user lengthIsZero length Nat.eqb andb].
    eexists. split; [reflexivity |]. cbn [chats].
    split; [apply renameChat_length |].
    split.
    { unfold renameChat. generalize before. intros l.
      induction l as [| c l IH]; [constructor |]. cbn [map].
      constructor; [| exact IH].
      destruct (String.eqb_spec (cs_id c) s) as [He | Hne]; cbn.
      - by rewrite decide_True.
      - by rewrite decide_False. }
    split; [apply titleOf_renameChat_registered | apply renameChat_unregistered].
  - intros x msgs Hx. rewrite (messagesOr_own _ _ _ Hx).
    cbn [lengthIsZero length Nat.eqb]. rewrite andb_false_r. eauto.
  - intros ->. cbn [is_user andb]. by destruct (messagesOr (chat w) s).
Qed.

(** The rule at work: the first user message of the registered, empty chat
    [b] retitles it. *)
Lemma addMessage_auto_rename_witness :
  exists w',
    addMessage Sample.uuid1 50 (Some "b") Sample.hello Sample.two_chats
    = Returned w' /\
    titleOf "b" (chats w') = Some "Explain the difference between a list an".
Proof.
  pose proof (addMessage_auto_rename Sample.uuid1 50 (Some "b") Sample.hello
                Sample.two_chats) as [H _].
  assert (messagesByChatId (chat Sample.two_chats) !! target Sample.uuid1 (Some "b")
          = Some (Messages [])) as Hempty by (by vm_compute).
  destruct (H eq_refl (or_introl Hempty)) as (w' & Hret & _ & _ & Hreg & _).
  exists w'. split; [exact Hret |]. apply Hreg. by left.
Defined.

(** C1 as stated fails: in the chat [xyz], opened by its address and not in
    the registry, the first message is a user message and the sequence was
    empty, yet the registry has no title for [xyz] afterwards. *)
Lemma addMessage_unregistered_chat_gets_no_title :
  msg_role Sample.hello = user /\
  messagesByChatId (chat Sample.opened_by_address) !! "xyz" = Some (Messages []) /\
  exists w',
    addMessage Sample.uuid1 50 (Some "xyz") Sample.hello Sample.opened_by_address
    = Returned w' /\
    messagesByChatId (chat w') !! "xyz" = Some (Messages [Sample.hello]) /\
    titleOf "xyz" (chats w') = None /\
    titleOf "xyz" (chats w')
    <> Some (first_chars 40 (msg_content Sample.hello)).
Proof.
  split; [done |]. split; [by vm_compute |].
  eexists. split; [reflexivity |]. split; [by vm_compute |].
  split; [by vm_compute | discriminate].
Qed.

(** The case the rule above leaves out: the registry holds a session whose
    id is [constructor], which has no entry in the mapping.  The read finds
    the inherited [Object], of [length] 1: the first user message does not
    retitle the session, and the call throws, leaving both stores as they
    were. *)
Lemma addMessage_inherited_name_throws :
  addMessage Sample.uuid1 50 (Some "constructor") Sample.hello
    Sample.constructor_registered
  = Raised TypeError Sample.constructor_registered.
Proof. by vm_compute. Qed.

(** C2 (send from the empty state).  With a generated id that is new to
    both stores and does not name an inherited property, [addMessage] with a
    null chat id returns and puts exactly one new entry in front of the
    registry and leaves the others as they were; the entry is the "New Chat"
    one, on which the auto-rename then acts.  The message is the only
    message of the new session, the new session is the active one, and no
    other key of the mapping changes. *)
Theorem addMessage_null_creates_session uuid now m w :
  fresh uuid w -> inherited uuid = false ->
  exists w',
    addMessage uuid now None m w = Returned w' /\
    let title := first_chars 40 (msg_content m) in
    chats w' = (if is_user (msg_role m) then renameChat uuid title else id)
                 (addChat (new_chat uuid now) (chats w)) /\
    chats w' = {| cs_id := uuid;
                  cs_title := if is_user (msg_role m) then title else "New Chat";
                  cs_createdAt := now |} :: chats w /\
    length (chats w') = S (length (chats w)) /\
    messagesByChatId (chat w') !! uuid = Some (Messages [m]) /\
    activeChatId (chat w') = Some uuid /\
    (forall k, k <> uuid ->
       messagesByChatId (chat w') !! k = messagesByChatId (chat w) !! k).
Proof.
  intros [Hmap Hreg] Hinh.
  rewrite addMessage_eq. cbn zeta.
  change (target uuid None) with uuid. change (truthy None) with false. cbn iota.
  rewrite (messagesOr_missing _ _ Hmap Hinh).
  cbn [lengthIsZero length Nat.eqb app]. rewrite andb_true_r.
  eexists. split; [reflexivity |]. cbn zeta. cbn [chats chat].
  set (title := first_chars 40 (msg_content m)).
  assert ((if is_user (msg_role m)
           then renameChat uuid title (new_chat uuid now :: chats w)
           else new_chat uuid now :: chats w)
          = {| cs_id := uuid;
               cs_title := if is_user (msg_role m) then title else "New Chat";
               cs_createdAt := now |} :: chats w) as Heq.
  { destruct (is_user (msg_role m)); [| done].
    unfold renameChat at 1. cbn. rewrite String.eqb_refl.
    f_equal. by apply renameChat_unregistered. }
  split; [by destruct (is_user (msg_role m)) |].
  split; [done |]. split; [by rewrite Heq |].
  cbn. split; [by rewrite lookup_insert_eq |]. split; [done |].
  intros k Hk. by rewrite lookup_insert_ne.
Qed.

Lemma sample_uuid1_fresh : fresh Sample.uuid1 Sample.two_chats.
Proof.
  split; [by vm_compute |].
  intros H. unfold registered in H. cbn in H.
  repeat (apply Exists_cons in H as [H | H]; [discriminate H |]).
  inversion H.
Qed.

Lemma addMessage_null_creates_session_witness :
  exists w',
    addMessage Sample.uuid1 50 None Sample.hello Sample.two_chats = Returned w' /\
    messagesByChatId (chat w') !! Sample.uuid1 = Some (Messages [Sample.hello]).
Proof.
  destruct (addMessage_null_creates_session Sample.uuid1 50 Sample.hello
              Sample.two_chats sample_uuid1_fresh eq_refl)
    as (w' & Hret & _ & _ & _ & Hm & _).
  exists w'. by split.
Defined.

(** C10 (the empty string as the "no session" sentinel).  With a generated
    id that is new to both stores and does not name an inherited property,
    [addMessage] called with the empty string as chat id returns, as it does
    with null and with the same stores: the registry is the one before with
    one entry in front, of the generated id and the current time, titled
    "New Chat" or, by the auto-rename, with the first 40 characters of a
    user message; the message is the only message stored under the
    generated id; that id is the active one; and no other key of the mapping
    changes, the key [""] in particular when the generated id is not
    empty. *)
Theorem addMessage_empty_string_is_null uuid now m w :
  fresh uuid w -> inherited uuid = false ->
  exists w',
    addMessage uuid now (Some EmptyString) m w = Returned w' /\
    addMessage uuid now None m w = Returned w' /\
    chats w' = {| cs_id := uuid;
                  cs_title := match msg_role m with
                              | user => first_chars 40 (msg_content m)
                              | assistant => "New Chat"
                              end;
                  cs_createdAt := now |} :: chats w /\
    messagesByChatId (chat w') !! uuid = Some (Messages [m]) /\
    activeChatId (chat w') = Some uuid /\
    (forall k, k <> uuid ->
       messagesByChatId (chat w') !! k = messagesByChatId (chat w) !! k) /\
    (uuid <> EmptyString ->
       messagesByChatId (chat w') !! EmptyString
       = messagesByChatId (chat w) !! EmptyString).
Proof.
  intros [Hmap Hreg] Hinh.
  assert (addMessage uuid now (Some EmptyString) m w = addMessage uuid now None m w)
    as -> by done.
  rewrite addMessage_eq. cbn zeta.
  change (target uuid None) with uuid. change (truthy None) with false. cbn iota.
  rewrite (messagesOr_missing _ _ Hmap Hinh).
  cbn [lengthIsZero length Nat.eqb app]. rewrite andb_true_r.
  eexists. split; [reflexivity |]. split; [reflexivity |]. cbn [chats chat].
  split.
  { destruct (msg_role m); cbn [is_user]; [| done].
    unfold renameChat at 1. cbn. rewrite String.eqb_refl.
    f_equal. by apply renameChat_unregistered. }
  cbn. split; [by rewrite lookup_insert_eq |]. split; [done |].
  split; intros; by rewrite lookup_insert_ne.
Qed.

Lemma addMessage_empty_string_is_null_witness :
  exists w',
    addMessage Sample.uuid1 50 (Some EmptyString) Sample.reply Sample.two_chats
    = Returned w' /\
    chats w' = {| cs_id := Sample.uuid1; cs_title := "New Chat";
                  cs_createdAt := 50 |} :: chats Sample.two_chats /\
    messagesByChatId (chat w') !! EmptyString = None.
Proof.
  destruct (addMessage_empty_string_is_null Sample.uuid1 50 Sample.reply
              Sample.two_chats sample_uuid1_fresh eq_refl)
    as (w' & Hret & _ & Hc & _ & _ & _ & He).
  exists w'. split; [exact Hret |]. split; [exact Hc |].
  rewrite He; [by vm_compute | discriminate].
Defined.

(** C5 (creating a session).  When the generated id is new to both stores,
    [createNewChat] returns that id; afterwards the registry starts with the
    entry of that id, titled "New Chat" and stamped with the current time,
    followed by the registry as it was; the id is the active one and its
    message sequence exists and is empty; every sequence stored before is
    still stored unchanged. *)
Theorem createNewChat_registers_fresh_session uuid now w :
  fresh uuid w ->
  let w' := (createNewChat uuid now w).1 in
  let id := (createNewChat uuid now w).2 in
  id = uuid /\
  messagesByChatId (chat w) !! id = None /\
  ~ registered id (chats w) /\
  chats w' !! 0%nat
    = Some {| cs_id := id; cs_title := "New Chat"; cs_createdAt := now |} /\
  drop 1 (chats w') = chats w /\
  activeChatId (chat w') = Some id /\
  messagesByChatId (chat w') !! id = Some (Messages []) /\
  (forall k msgs, messagesByChatId (chat w) !! k = Some msgs ->
     messagesByChatId (chat w') !! k = Some msgs).
Proof.
  intros [Hmap Hreg]. cbn.
  repeat split; try done.
  - by rewrite lookup_insert_eq.
  - intros k msgs Hk. rewrite lookup_insert_ne; [done |].
    intros ->. congruence.
Qed.

Lemma createNewChat_registers_fresh_session_witness :
  chats (createNewChat Sample.uuid2 60 Sample.two_chats).1 !! 0%nat
  = Some {| cs_id := Sample.uuid2; cs_title := "New Chat"; cs_createdAt := 60 |}.
Proof.
  assert (fresh Sample.uuid2 Sample.two_chats) as Hfresh.
  { split; [by vm_compute |].
    intros H. unfold registered in H. cbn in H.
    repeat (apply Exists_cons in H as [H | H]; [discriminate H |]).
    inversion H. }
  exact (proj1 (proj2 (proj2 (proj2
    (createNewChat_registers_fresh_session Sample.uuid2 60 Sample.two_chats Hfresh))))).
Defined.

(** C4 as the code has it.  After [clearChat id] the mapping has no entry
    for [id] and its other entries are as before, the active pointer is null
    whichever session was active, and the registry is not modified. *)
Theorem clearChat_effect id w :
  let w' := clearChat id w in
  messagesByChatId (chat w') !! id = None /\
  (forall k, k <> id ->
     messagesByChatId (chat w') !! k = messagesByChatId (chat w) !! k) /\
  activeChatId (chat w') = None /\
  chats w' = chats w.
Proof.
  cbn. split; [apply lookup_delete_eq |]. split; [| done].
  intros k Hk. by apply lookup_delete_ne.
Qed.

(** C4 as stated fails: clearing the chat [b] while [a] is the active one
    does not leave the active pointer on [a]. *)
Lemma clearChat_nonactive_resets_active :
  activeChatId (chat Sample.two_chats) = Some "a" /\
  activeChatId (chat Sample.two_chats) <> Some "b" /\
  activeChatId (chat (clearChat "b" Sample.two_chats))
  <> activeChatId (chat Sample.two_chats).
Proof. cbn. repeat split; discriminate. Qed.

Lemma updateMessage_falsy chatId id content w :
  truthy chatId = false -> updateMessage chatId id content w = Normal w.
Proof. unfold updateMessage. by intros ->. Qed.

Lemma updateMessage_unknown cid id content w :
  cid <> EmptyString -> messagesByChatId (chat w) !! cid = None ->
  updateMessage (Some cid) id content w = Throw TypeError.
Proof.
  intros Hne Hnone. unfold updateMessage, read.
  apply truthy_Some_iff in Hne. rewrite Hne. cbn. rewrite Hnone.
  by destruct (inherited cid).
Qed.

(** C3 at a chat id that has no entry in the mapping: the call does not
    return, it throws a [TypeError] (the stores are left as they were). *)
Theorem updateMessage_unknown_chat_throws :
  messagesByChatId (chat Sample.two_chats) !! "ghost" = None /\
  updateMessage (Some "ghost") "1700000000000" "edited" Sample.two_chats
  = Throw TypeError.
Proof. split; by vm_compute. Qed.

Lemma no_sentinel_chat_id w c msgs (i : nat) (x : Message) :
  no_sentinel_messages w ->
  messagesByChatId (chat w) !! c = Some (Messages msgs) -> msgs !! i = Some x ->
  c <> EmptyString.
Proof.
  unfold no_sentinel_messages. intros Hs Hc Hi ->.
  rewrite (messagesOr_own _ _ _ Hc) in Hs. injection Hs as ->.
  by rewrite lookup_nil in Hi.
Qed.

(** C8 as the code has it (editing a message).  In a state where the
    sentinel key [""] holds no messages (every reachable state is such a
    state), let the message [x] with id [mid] be at index [i] of the
    sequence of chat [c].  Then [updateMessage c mid content] returns
    normally; the sequence of [c] keeps its length; at index [i] it holds
    [x] with the new content and the same id, role and timestamp; so does
    every other index whose message carries the id [mid]; every message with
    another id is where it was, unchanged, so that every index other than
    [i] is unchanged when message ids are unique within the sequence; the
    other chats' sequences, the active pointer and the registry are
    unchanged. *)
Theorem updateMessage_replaces_content_only c mid content w msgs (i : nat) x :
  no_sentinel_messages w ->
  messagesByChatId (chat w) !! c = Some (Messages msgs) ->
  msgs !! i = Some x -> msg_id x = mid ->
  exists w' msgs',
    updateMessage (Some c) mid content w = Normal w' /\
    messagesByChatId (chat w') !! c = Some (Messages msgs') /\
    length msgs' = length msgs /\
    msgs' !! i = Some {| msg_id := msg_id x; msg_role := msg_role x;
                         msg_content := content;
                         msg_timestamp := msg_timestamp x |} /\
    (forall (j : nat) y, msgs !! j = Some y -> msg_id y = mid ->
       msgs' !! j = Some {| msg_id := msg_id y; msg_role := msg_role y;
                            msg_content := content;
                            msg_timestamp := msg_timestamp y |}) /\
    (forall (j : nat) y, msgs !! j = Some y -> msg_id y <> mid -> msgs' !! j = Some y) /\
    (NoDup (map msg_id msgs) -> forall j : nat, j <> i -> msgs' !! j = msgs !! j) /\
    (forall k, k <> c ->
       messagesByChatId (chat w') !! k = messagesByChatId (chat w) !! k) /\
    activeChatId (chat w') = activeChatId (chat w) /\
    chats w' = chats w.
Proof.
  intros Hs Hc Hi Hid.
  pose proof (no_sentinel_chat_id _ _ _ _ _ Hs Hc Hi) as Hne.
  apply truthy_Some_iff in Hne.
  unfold updateMessage, read. rewrite Hne. cbn. rewrite Hc.
  set (upd := fun msg : Message =>
                if String.eqb (msg_id msg) mid then with_content msg content else msg).
  assert (forall (j : nat) y, msgs !! j = Some y -> msg_id y <> mid ->
            map upd msgs !! j = Some y) as Hother.
  { intros j y Hj Hy.
    change (map upd msgs) with (upd <$> msgs).
    rewrite list_lookup_fmap, Hj. cbn. unfold upd.
    by destruct (String.eqb_spec (msg_id y) mid). }
  assert (forall (j : nat) y, msgs !! j = Some y -> msg_id y = mid ->
            map upd msgs !! j = Some (with_content y content)) as Hsame.
  { intros j y Hj Hy.
    change (map upd msgs) with (upd <$> msgs).
    rewrite list_lookup_fmap, Hj. cbn. unfold upd.
    by rewrite Hy, String.eqb_refl. }
  eexists _, (map upd msgs). split; [reflexivity |]. cbn.
  split; [by rewrite lookup_insert_eq |].
  split; [by rewrite length_map |].
  split; [by apply (Hsame i x) |].
  split; [exact Hsame |].
  split; [exact Hother |].
  split.
  { intros Hnd j Hj. destruct (msgs !! j) as [y |] eqn:Hy.
    - apply Hother; [done |]. intros Hy'. apply Hj.
      apply (NoDup_lookup (map msg_id msgs) j i mid Hnd).
      + change (map msg_id msgs) with (msg_id <$> msgs).
        by rewrite list_lookup_fmap, Hy; cbn; rewrite Hy'.
      + change (map msg_id msgs) with (msg_id <$> msgs).
        by rewrite list_lookup_fmap, Hi; cbn; rewrite Hid.
    - apply lookup_ge_None. rewrite length_map. by apply lookup_ge_None. }
  split; [| done].
  intros k Hk. by rewrite lookup_insert_ne.
Qed.

Lemma updateMessage_replaces_content_only_witness :
  exists w' msgs',
    updateMessage (Some "a") "1700000000000" "edited" Sample.two_chats = Normal w' /\
    messagesByChatId (chat w') !! "a" = Some (Messages msgs') /\
    msgs' !! 0%nat = Some {| msg_id := "1700000000000"; msg_role := user;
                             msg_content := "edited";
                             msg_timestamp := 1700000000000 |}.
Proof.
  assert (no_sentinel_messages Sample.two_chats) as Hs by (by vm_compute).
  assert (messagesByChatId (chat Sample.two_chats) !! "a"
          = Some (Messages [Sample.hello; Sample.reply])) as Hc by (by vm_compute).
  destruct (updateMessage_replaces_content_only
              "a" "1700000000000" "edited" Sample.two_chats
              [Sample.hello; Sample.reply] 0 Sample.hello Hs Hc eq_refl eq_refl)
    as (w' & msgs' & H1 & H2 & _ & H3 & _).
  exists w', msgs'. by repeat split.
Defined.

(** C8 as stated fails: two messages of the chat [a] were sent within the
    same millisecond and carry the same id; editing the first one also
    replaces the content of the second, another message of the chat. *)
Lemma updateMessage_rewrites_every_message_with_the_id :
  messagesByChatId (chat Sample.same_millisecond) !! "a"
    = Some (Messages [Sample.hello; Sample.hello_again]) /\
  exists w' msgs',
    updateMessage (Some "a") (msg_id Sample.hello) "edited" Sample.same_millisecond
    = Normal w' /\
    messagesByChatId (chat w') !! "a" = Some (Messages msgs') /\
    msgs' !! 1%nat <> Some Sample.hello_again.
Proof.
  split; [by vm_compute |].
  eexists _, _. split; [reflexivity |]. split; [by vm_compute |].
  discriminate.
Qed.

Lemma updateMessage_state_after chatId id content w :
  activeChatId (chat (state_after w (updateMessage chatId id content w)))
  = activeChatId (chat w) /\
  forall k,
    is_Some (messagesByChatId
               (chat (state_after w (updateMessage chatId id content w))) !! k)
    <-> is_Some (messagesByChatId (chat w) !! k).
Proof.
  unfold updateMessage. destruct (truthy chatId); cbn; [| done].
  set (cid := default EmptyString chatId).
  unfold read.
  destruct (messagesByChatId (chat w) !! cid) as [[msgs | key] |] eqn:Hc;
    cbn; try done.
  2:{ by destruct (inherited cid). }
  split; [done |]. intros k.
  destruct (decide (k = cid)) as [-> | Hk].
  - rewrite lookup_insert_eq, Hc. split; eauto.
  - by rewrite lookup_insert_ne.
Qed.

Lemma addMessage_active_known uuid now chatId m w :
  active_known (chat w) ->
  active_known (chat (after (addMessage uuid now chatId m w))).
Proof.
  intros Hinv. rewrite addMessage_eq. cbn zeta.
  destruct (messagesOr (chat w) (target uuid chatId)); cbn; [| done].
  unfold active_known. cbn. by rewrite lookup_insert_eq.
Qed.

(** The active pointer, when set, references a key of the mapping.  From a
    state where this holds, each action of the message
    store leads to a state where it holds; for [addMessage] and
    [updateMessage] this is the state of the stores once the call has
    completed, normally or by an exception.  [setActiveChat id] makes [id]
    the active chat, gives an unknown [id] that does not name an inherited
    property the empty sequence and leaves the whole mapping as it was when
    [id] is known. *)
Lemma active_known_preserved w :
  active_known (chat w) ->
  (forall uuid now, active_known (chat (createNewChat uuid now w).1)) /\
  (forall id,
     active_known (chat (setActiveChat id w)) /\
     activeChatId (chat (setActiveChat id w)) = Some id /\
     (messagesByChatId (chat w) !! id = None -> inherited id = false ->
        messagesByChatId (chat (setActiveChat id w)) !! id = Some (Messages [])) /\
     (forall k, k <> id ->
        messagesByChatId (chat (setActiveChat id w)) !! k
        = messagesByChatId (chat w) !! k) /\
     (is_Some (messagesByChatId (chat w) !! id) ->
        messagesByChatId (chat (setActiveChat id w)) = messagesByChatId (chat w))) /\
  (forall uuid now chatId m,
     active_known (chat (after (addMessage uuid now chatId m w)))) /\
  (forall chatId id content,
     active_known (chat (state_after w (updateMessage chatId id content w)))) /\
  (forall id, active_known (chat (clearChat id w))) /\
  active_known (chat (clearAllChats w)).
Proof.
  intros Hinv.
  assert (forall id (m : gmap string Stored) v,
            active_known {| activeChatId := Some id; messagesByChatId := <[id := v]> m |})
    as Hins.
  { intros id m v. unfold active_known. cbn. by rewrite lookup_insert_eq. }
  split; [intros uuid now; apply Hins |].
  split.
  { intros id. split; [apply Hins |]. split; [done |]. split; [| split].
    - intros Hnone Hinh. cbn. rewrite (messagesOr_missing _ _ Hnone Hinh).
      by rewrite lookup_insert_eq.
    - intros k Hk. cbn. by rewrite lookup_insert_ne.
    - intros [v Hv]. cbn. rewrite (messagesOr_own _ _ _ Hv). by apply insert_id. }
  split; [intros uuid now chatId m; by apply addMessage_active_known |].
  split; [| done].
  intros chatId id content.
  destruct (updateMessage_state_after chatId id content w) as [Ha Hk].
  unfold active_known in *. rewrite Ha.
  destruct (activeChatId (chat w)); [| done]. by apply Hk.
Qed.

(** C9 at an id that names an inherited property: [setActiveChat] reads
    [state.messagesByChatId["toString"]], finds the function every object
    inherits, which is truthy, and stores it; the unknown id is not
    initialized to the empty sequence, and the next [addMessage] or
    [updateMessage] on that chat throws. *)
Theorem setActiveChat_inherited_name_stores_member :
  messagesByChatId (chat init) !! "toString" = None /\
  messagesByChatId (chat (setActiveChat "toString" init)) !! "toString"
    = Some (Member "toString") /\
  messagesByChatId (chat (setActiveChat "toString" init)) !! "toString"
    <> Some (Messages []) /\
  addMessage Sample.uuid1 50 (Some "toString") Sample.hello
    (setActiveChat "toString" init)
    = Raised TypeError (setActiveChat "toString" init) /\
  updateMessage (Some "toString") (msg_id Sample.hello) "edited"
    (setActiveChat "toString" init)
    = Throw TypeError.
Proof.
  split; [done |]. split; [by vm_compute |]. split; [by vm_compute |].
  split; by vm_compute.
Qed.

(** Both invariants hold in every state the application can reach. *)
Lemma step_no_sentinel_messages w w' :
  step w w' -> no_sentinel_messages w -> no_sentinel_messages w'.
Proof.
  assert (forall st, messagesOr st EmptyString = Messages [] <->
                     (forall v, messagesByChatId st !! EmptyString = Some v ->
                                v = Messages [])) as Hiff.
  { intros st. unfold messagesOr, read. cbn.
    destruct (messagesByChatId st !! EmptyString) as [v |]; cbn.
    - split; [by intros -> ? [= <-] | eauto].
    - split; done. }
  unfold no_sentinel_messages. rewrite !Hiff.
  destruct 1 as [uuid now w Hu | id w | uuid now chatId m w Hu
                | chatId id content w | id w | w | c w | id title w | id w | w];
    intros Hs v; cbn; try apply Hs.
  - rewrite lookup_insert_ne by done. apply Hs.
  - destruct (decide (id = EmptyString)) as [-> | Hne].
    + rewrite lookup_insert_eq. intros [= <-]. apply Hiff. exact Hs.
    + rewrite lookup_insert_ne by done. apply Hs.
  - rewrite addMessage_eq. cbn zeta.
    destruct (messagesOr (chat w) (target uuid chatId)); cbn; [| apply Hs].
    rewrite lookup_insert_ne; [apply Hs |].
    unfold target. destruct (truthy chatId) eqn:Ht; [| done].
    destruct chatId as [[|] |]; cbn in *; congruence.
  - unfold updateMessage. destruct (truthy chatId) eqn:Ht; cbn; [| apply Hs].
    destruct (read (messagesByChatId (chat w)) (default EmptyString chatId))
      as [[msgs | key] |]; cbn; try apply Hs.
    rewrite lookup_insert_ne; [apply Hs |].
    destruct chatId as [[|] |]; cbn in *; congruence.
  - destruct (decide (id = EmptyString)) as [-> | Hne].
    + by rewrite lookup_delete_eq.
    + rewrite lookup_delete_ne by done. apply Hs.
  - by rewrite lookup_empty.
Qed.

Lemma reachable_no_sentinel_messages w :
  reachable w -> no_sentinel_messages w.
Proof.
  induction 1 as [| w w' _ IH Hstep]; [done |].
  by apply (step_no_sentinel_messages w).
Qed.

Lemma step_active_known w w' :
  step w w' -> active_known (chat w) -> active_known (chat w').
Proof.
  destruct 1 as [uuid now w Hu | id w | uuid now chatId m w Hu
                | chatId id content w | id w | w | c w | id title w | id w | w];
    intros Hinv; try done.
  - unfold active_known. cbn. by rewrite lookup_insert_eq.
  - unfold active_known. cbn. by rewrite lookup_insert_eq.
  - by apply addMessage_active_known.
  - destruct (updateMessage_state_after chatId id content w) as [Ha Hk].
    unfold active_known in *. rewrite Ha.
    destruct (activeChatId (chat w)); [| done]. by apply Hk.
Qed.

Lemma reachable_active_known w : reachable w -> active_known (chat w).
Proof.
  induction 1 as [| w w' _ IH Hstep]; [done |].
  by apply (step_active_known w).
Qed.

End ChatStoreFacts.

(** ** Strings *)

Section StringFacts.

Import JS Spec.

Lemma append_cons c (s t : string) : String c s ++ t = String c (s ++ t).
Proof. reflexivity. Qed.

Lemma append_empty_l (s : string) : EmptyString ++ s = s.
Proof. reflexivity. Qed.

Lemma append_empty_r s : s ++ EmptyString = s.
Proof. induction s as [| c s IH]; [done | by rewrite append_cons, IH]. Qed.

Lemma append_assoc (s1 s2 s3 : string) : (s1 ++ s2) ++ s3 = s1 ++ (s2 ++ s3).
Proof. induction s1 as [| c s1 IH]; [done | by rewrite !append_cons, IH]. Qed.

Lemma string_of_list_ascii_app l1 l2 :
  string_of_list_ascii (l1 ++ l2)%list
  = string_of_list_ascii l1 ++ string_of_list_ascii l2.
Proof. induction l1 as [| c l1 IH]; [done |]. cbn. by rewrite append_cons, IH. Qed.

Lemma startsWith_prefix_of text token :
  startsWith text token = true <-> prefix_of token text.
Proof.
  unfold prefix_of. revert text.
  induction token as [| a token IH]; intros text.
  - split; [intros _; by exists text | by destruct text].
  - destruct text as [| b text].
    + split; [done | intros [post H]; discriminate H].
    + change (startsWith (String b text) (String a token))
        with (if Ascii.eqb a b then startsWith text token else false).
      destruct (Ascii.eqb_spec a b) as [-> | Hne].
      * rewrite IH. split; intros [post H]; exists post.
        -- by rewrite append_cons, <- H.
        -- rewrite append_cons in H. congruence.
      * split; [done | intros [post H]; rewrite append_cons in H; congruence].
Qed.

Lemma includes_unfold text token :
  includes text token
  = startsWith text token ||
    match text with
    | EmptyString => false
    | String _ text' => includes text' token
    end.
Proof. by destruct text. Qed.

Lemma includes_substring_of text token :
  includes text token = true <-> substring_of token text.
Proof.
  unfold substring_of. induction text as [| c text IH].
  - rewrite includes_unfold, orb_false_r, startsWith_prefix_of. split.
    + intros [post H]. by exists EmptyString, post.
    + intros (pre & post & H). destruct pre; [by exists post | discriminate H].
  - rewrite includes_unfold, orb_true_iff, IH, startsWith_prefix_of. split.
    + intros [[post H] | (pre & post & H)].
      * by exists EmptyString, post.
      * exists (String c pre), post. by rewrite append_cons, <- H.
    + intros (pre & post & H). destruct pre as [| c' pre].
      * left. by exists post.
      * right. exists pre, post. rewrite append_cons in H. congruence.
Qed.

Lemma startsWith_includes text token :
  startsWith text token = true -> includes text token = true.
Proof. intros H. by rewrite includes_unfold, H. Qed.

Lemma isWhiteSpace_lowerChar c : isWhiteSpace (lowerChar c) = isWhiteSpace c.
Proof. by destruct c as [[] [] [] [] [] [] [] []]. Qed.

Lemma trimStart_toLowerCase s :
  trimStart (toLowerCase s) = toLowerCase (trimStart s).
Proof.
  induction s as [| c s IH]; cbn; [done |].
  rewrite isWhiteSpace_lowerChar. by destruct (isWhiteSpace c).
Qed.

Lemma trimEnd_toLowerCase s :
  trimEnd (toLowerCase s) = toLowerCase (trimEnd s).
Proof.
  induction s as [| c s IH]; cbn; [done |].
  rewrite IH, isWhiteSpace_lowerChar.
  destruct (trimEnd s); cbn; [| done]. by destruct (isWhiteSpace c).
Qed.

Lemma trim_toLowerCase s : trim (toLowerCase s) = toLowerCase (trim s).
Proof. unfold trim. by rewrite trimStart_toLowerCase, trimEnd_toLowerCase. Qed.

Lemma toLowerCase_empty s : toLowerCase s = EmptyString <-> s = EmptyString.
Proof. by destruct s. Qed.

Lemma trimStart_starts s :
  trimStart s = EmptyString \/ startsNonWs (trimStart s).
Proof.
  induction s as [| c s IH]; cbn; [by left |].
  destruct (isWhiteSpace c) eqn:Hc; [done | by right].
Qed.

Lemma trimEnd_ends s : endsWs (trimEnd s) = false.
Proof.
  induction s as [| c s IH]; cbn; [done |].
  destruct (trimEnd s) as [| d t] eqn:Ht.
  - destruct (isWhiteSpace c) eqn:Hc; cbn; done.
  - exact IH.
Qed.

Lemma trimEnd_starts s : startsNonWs s -> startsNonWs (trimEnd s).
Proof.
  destruct s as [| c s]; cbn; [done |]. intros Hc.
  destruct (trimEnd s); [by rewrite Hc | done].
Qed.

Lemma trim_shape s :
  trim s <> EmptyString -> startsNonWs (trim s) /\ endsWs (trim s) = false.
Proof.
  unfold trim. intros Hne. split; [| apply trimEnd_ends].
  destruct (trimStart_starts s) as [He | Hs].
  - by rewrite He in Hne.
  - by apply trimEnd_starts.
Qed.

Lemma all_chars_of_list p l :
  Forall (fun c => p c = true) l -> all_chars p (string_of_list_ascii l) = true.
Proof.
  induction 1 as [| c l Hc _ IH]; [done |]. cbn. by rewrite Hc, IH.
Qed.

Lemma string_of_list_ascii_empty l :
  string_of_list_ascii l = EmptyString -> l = [].
Proof. by destruct l. Qed.

Lemma endsWs_tail c s : endsWs (String c s) = false -> endsWs s = false.
Proof. by destruct s. Qed.

Lemma endsWs_ws_tail c s :
  isWhiteSpace c = true -> endsWs (String c s) = false -> s <> EmptyString.
Proof. intros Hc He ->. cbn in He. congruence. Qed.

Lemma splitWs_step c s cur inSep :
  splitWs (String c s) cur inSep
  = if isWhiteSpace c then
      if inSep then splitWs s cur true
      else string_of_list_ascii (rev cur) :: splitWs s [] true
    else splitWs s (c :: cur) false.
Proof. reflexivity. Qed.

(** What [splitWs] returns on a string that does not end in white space:
    read from inside a token (first part) or from inside a separator (second
    part). *)
Lemma splitWs_tokenized s :
  (forall cur,
     Forall (fun c => negb (isWhiteSpace c) = true) cur ->
     cur <> [] \/ startsNonWs s -> endsWs s = false ->
     tokenized (string_of_list_ascii (rev cur) ++ s) (splitWs s cur false)) /\
  (s <> EmptyString -> endsWs s = false ->
   exists sep rest,
     s = sep ++ rest /\ allWs sep /\ tokenized rest (splitWs s [] true)).
Proof.
  induction s as [| c s [IH1 IH2]].
  - split; [| done]. intros cur Hcur [Hne | []] _.
    rewrite append_empty_r. cbn. apply tokenized_last.
    + intros He. apply string_of_list_ascii_empty in He.
      apply Hne. apply (f_equal (@rev ascii)) in He.
      by rewrite rev_involutive in He.
    + apply all_chars_of_list. by apply Forall_rev.
  - split.
    + intros cur Hcur Hstart Hend. rewrite splitWs_step.
      destruct (isWhiteSpace c) eqn:Hc.
      * destruct Hstart as [Hne | Hs]; [| cbn in Hs; congruence].
        destruct (IH2 (endsWs_ws_tail c s Hc Hend) (endsWs_tail c s Hend))
          as (sep & rest & -> & Hsep & Htok).
        rewrite <- append_cons.
        apply tokenized_more; try done.
        -- intros He. apply string_of_list_ascii_empty in He.
           apply Hne. apply (f_equal (@rev ascii)) in He.
           by rewrite rev_involutive in He.
        -- apply all_chars_of_list. by apply Forall_rev.
        -- unfold allWs in *. cbn. by rewrite Hc, Hsep.
      * replace (string_of_list_ascii (rev cur) ++ String c s)
          with (string_of_list_ascii (rev (c :: cur)) ++ s).
        2:{ cbn [rev]. rewrite string_of_list_ascii_app, append_assoc.
            by cbn. }
        apply IH1; [| by left | by apply (endsWs_tail c)].
        constructor; [by rewrite Hc | done].
    + intros _ Hend. rewrite splitWs_step.
      destruct (isWhiteSpace c) eqn:Hc.
      * destruct (IH2 (endsWs_ws_tail c s Hc Hend) (endsWs_tail c s Hend))
          as (sep & rest & -> & Hsep & Htok).
        exists (String c sep), rest. split; [by rewrite append_cons |].
        split; [| done]. unfold allWs in *. cbn. by rewrite Hc, Hsep.
      * exists EmptyString, (String c s). split; [done |]. split; [done |].
        change (String c s) with (string_of_list_ascii (rev [c]) ++ s) at 1.
        apply IH1; [| by left | by apply (endsWs_tail c)].
        constructor; [by rewrite Hc | done].
Qed.

Lemma split_ws_trimmed s :
  startsNonWs s -> endsWs s = false -> tokenized s (split_ws s).
Proof.
  intros Hs He.
  destruct (splitWs_tokenized s) as [H _].
  apply (H []); [constructor | by right | done].
Qed.

End StringFacts.

(** ** Sorting *)

Section SortFacts.

Import Search.
Local Open Scope Z_scope.

Context {A : Type} (key : A -> Z).

Local Abbreviation descending := (Spec.descending key).

Lemma sort_insert_perm x l : sort_insert descending x l ≡ₚ x :: l.
Proof.
  induction l as [| y l IH]; cbn; [done |].
  destruct (descending x y <=? 0); [done |].
  rewrite IH. apply perm_swap.
Qed.

Lemma sort_perm l : sort descending l ≡ₚ l.
Proof.
  induction l as [| x l IH]; cbn; [done |].
  by rewrite sort_insert_perm, IH.
Qed.

Lemma sort_insert_sorted x l :
  StronglySorted (fun a b => key b <= key a) l ->
  StronglySorted (fun a b => key b <= key a) (sort_insert descending x l).
Proof.
  induction 1 as [| y l Hl IH Hy]; cbn.
  - by repeat constructor.
  - unfold descending at 1. destruct (Z.leb_spec (key y - key x) 0) as [Hle | Hgt].
    + constructor; [by constructor |].
      constructor; [lia |].
      eapply Forall_impl; [exact Hy |]. cbn. intros z Hz. lia.
    + constructor; [exact IH |].
      rewrite sort_insert_perm. constructor; [lia | exact Hy].
Qed.

Lemma sort_sorted l :
  StronglySorted (fun a b => key b <= key a) (sort descending l).
Proof.
  induction l as [| x l IH]; cbn; [constructor |].
  by apply sort_insert_sorted.
Qed.

(** Stability: the elements of any one key keep their order. *)
Lemma filter_sort_insert v x l :
  List.filter (fun a => key a =? v) (sort_insert descending x l)
  = List.filter (fun a => key a =? v) (x :: l).
Proof.
  induction l as [| y l IH]; [done |].
  cbn [sort_insert]. unfold descending at 1.
  destruct (Z.leb_spec (key y - key x) 0) as [Hle | Hgt]; [done |].
  cbn [List.filter] in *. rewrite IH.
  destruct (Z.eqb_spec (key x) v), (Z.eqb_spec (key y) v); try done. lia.
Qed.

Lemma filter_sort v l :
  List.filter (fun a => key a =? v) (sort descending l)
  = List.filter (fun a => key a =? v) l.
Proof.
  induction l as [| x l IH]; [done |].
  cbn [sort]. rewrite filter_sort_insert. cbn. by rewrite IH.
Qed.

(** A sorted, stable arrangement is unique: whatever algorithm an engine
    uses for [Array.prototype.sort], a result in descending order of key
    that keeps the order of the elements of each key is the list [sort]
    returns. *)
Lemma stable_sorted_unique l1 l2 :
  StronglySorted (fun a b => key b <= key a) l1 ->
  StronglySorted (fun a b => key b <= key a) l2 ->
  (forall v, List.filter (fun a => key a =? v) l1
             = List.filter (fun a => key a =? v) l2) ->
  l1 = l2.
Proof.
  intros H1. revert l2.
  induction H1 as [| x l1 Hl1 IH Hx]; intros l2 H2 Heq.
  - destruct l2 as [| y l2]; [done |].
    specialize (Heq (key y)). cbn in Heq. by rewrite Z.eqb_refl in Heq.
  - destruct H2 as [| y l2 Hl2 Hy].
    { specialize (Heq (key x)). cbn in Heq. by rewrite Z.eqb_refl in Heq. }
    assert (forall (a b : A) (l l' : list A),
              Forall (fun c => key c <= key b) l' ->
              List.filter (fun c => key c =? key a) (a :: l)
              = List.filter (fun c => key c =? key a) (b :: l') ->
              key a <= key b) as Hbound.
    { intros a b l l' Hb Hf. cbn [List.filter] in Hf. rewrite Z.eqb_refl in Hf.
      assert (In a (List.filter (fun c => key c =? key a) (b :: l'))) as Hin
        by (cbn [List.filter]; rewrite <- Hf; by left).
      apply filter_In in Hin as [[<- | Hin] _]; [lia |].
      rewrite Forall_forall in Hb. apply Hb. by apply list_elem_of_In. }
    assert (key x = key y) as Hk.
    { apply Z.le_antisymm.
      - by apply (Hbound x y l1 l2 Hy).
      - by apply (Hbound y x l2 l1 Hx). }
    pose proof (Heq (key x)) as Hhead. cbn in Hhead.
    rewrite <- Hk, Z.eqb_refl in Hhead. injection Hhead as <- Htail.
    f_equal. apply IH; [done |]. intros v.
    destruct (Z.eq_dec v (key x)) as [-> | Hv]; [done |].
    specialize (Heq v). cbn in Heq.
    by destruct (Z.eqb_spec (key x) v) as [? | _]; [congruence |].
Qed.

Lemma sort_characterized l r :
  StronglySorted (fun a b => key b <= key a) r ->
  (forall v, List.filter (fun a => key a =? v) r
             = List.filter (fun a => key a =? v) l) ->
  r = sort descending l.
Proof.
  intros Hr Hst. apply stable_sorted_unique; [done | apply sort_sorted |].
  intros v. by rewrite filter_sort.
Qed.

End SortFacts.

Lemma sort_map {A B : Type} (g : B -> A) (compare : A -> A -> Z) l :
  Search.sort compare (map g l)
  = map g (Search.sort (fun a b => compare (g a) (g b)) l).
Proof.
  induction l as [| x l IH]; [done |]. cbn. rewrite IH.
  generalize (Search.sort (fun a b => compare (g a) (g b)) l). intros l'.
  induction l' as [| y l' IH']; [done |]. cbn.
  destruct (compare (g x) (g y) <=? 0)%Z; [done |]. cbn. by rewrite IH'.
Qed.

Lemma filter_map_comm {A B : Type} (g : B -> A) (p : A -> bool) l :
  List.filter p (map g l) = map g (List.filter (fun b => p (g b)) l).
Proof.
  induction l as [| x l IH]; [done |]. cbn. rewrite IH.
  by destruct (p (g x)).
Qed.

Lemma filter_filter_weaker {A : Type} (p q : A -> bool) l :
  (forall a, p a = true -> q a = true) ->
  List.filter p (List.filter q l) = List.filter p l.
Proof.
  intros Hpq. induction l as [| x l IH]; [done |]. cbn.
  destruct (q x) eqn:Hq; cbn; rewrite IH; [done |].
  destruct (p x) eqn:Hp; [| done]. apply Hpq in Hp. congruence.
Qed.

(** ** Search *)

Section SearchFacts.

Import JS Spec Search.
Local Open Scope Z_scope.

Lemma scoreLoop_acc text tokens acc :
  scoreLoop text tokens acc = acc + scoreMatch text tokens.
Proof.
  unfold scoreMatch. revert acc.
  induction tokens as [| token tokens IH]; intros acc; cbn; [lia |].
  rewrite IH. rewrite (IH (if startsWith text token then _ else _)).
  destruct (includes text token), (startsWith text token); lia.
Qed.

Lemma scoreMatch_cons text token tokens :
  scoreMatch text (token :: tokens)
  = (if includes text token then 10 else 0)
    + (if startsWith text token then 15 else 0)
    + scoreMatch text tokens.
Proof.
  unfold scoreMatch at 1. cbn. rewrite scoreLoop_acc.
  destruct (includes text token), (startsWith text token); lia.
Qed.

Lemma scoreMatch_score_is text tokens :
  score_is text tokens (scoreMatch text tokens).
Proof.
  induction tokens as [| token tokens IH]; [constructor |].
  rewrite scoreMatch_cons. apply score_cons; [| exact IH].
  destruct (startsWith text token) eqn:Hp.
  - rewrite (startsWith_includes _ _ Hp). apply points_prefix.
    + by apply includes_substring_of, startsWith_includes.
    + by apply startsWith_prefix_of.
  - destruct (includes text token) eqn:Hi.
    + apply points_substring; [by apply includes_substring_of |].
      rewrite <- startsWith_prefix_of. congruence.
    + apply points_none. rewrite <- includes_substring_of. congruence.
Qed.

Lemma searchChats_unfold query chats :
  trim query <> EmptyString ->
  let score := fun c =>
    scoreMatch (normalize (cs_title c)) (split_ws (normalize query)) in
  searchChats query chats
  = sort (fun a b => score b - score a)
      (List.filter (fun c => 0 <? score c) chats).
Proof.
  intros Hne score. unfold searchChats.
  apply truthy_Some_iff in Hne. rewrite Hne. cbn [negb].
  rewrite filter_map_comm, sort_map, map_map. cbn. by rewrite map_id.
Qed.

Lemma normalize_shape query :
  trim query <> EmptyString ->
  startsNonWs (normalize query) /\ endsWs (normalize query) = false.
Proof.
  intros Hne. unfold normalize. apply trim_shape.
  rewrite trim_toLowerCase. by rewrite toLowerCase_empty.
Qed.

(** C6 (ranking).  For a query whose trimmed form is not empty, let [tokens]
    be what [searchChats] splits the lower-cased, trimmed query into and
    [score c] the value [scoreMatch] gives the lower-cased, trimmed title of
    [c].  Then: the query is exactly these tokens, each non-empty and free of
    white space, separated by runs of white space; the score of a session is
    the sum over the tokens of 10 for a token that is a substring of the
    title but not a prefix, 25 for a token that is a prefix, 0 otherwise; the
    result holds exactly the sessions of positive score, as often as the
    input does; it is in descending order of score; and the sessions of any
    one score are in the order the input has them. *)
Theorem searchChats_ranks query chats :
  trim query <> EmptyString ->
  let tokens := split_ws (normalize query) in
  let score := fun c => scoreMatch (normalize (cs_title c)) tokens in
  let result := searchChats query chats in
  tokenized (normalize query) tokens /\
  (forall c, score_is (normalize (cs_title c)) tokens (score c)) /\
  result ≡ₚ List.filter (fun c => 0 <? score c) chats /\
  (forall c, c ∈ result <-> c ∈ chats /\ 0 < score c) /\
  StronglySorted (fun a b => score b <= score a) result /\
  (forall v, 0 < v ->
     List.filter (fun c => score c =? v) result
     = List.filter (fun c => score c =? v) chats).
Proof.
  intros Hne tokens score result.
  assert (result = sort (fun a b => score b - score a)
                     (List.filter (fun c => 0 <? score c) chats)) as ->
    by (by apply searchChats_unfold).
  split.
  { destruct (normalize_shape query Hne) as [Hs He]. by apply split_ws_trimmed. }
  split; [intros c; apply scoreMatch_score_is |].
  split; [apply (sort_perm score) |].
  split.
  { intros c. rewrite (sort_perm score), !list_elem_of_In, filter_In.
    by rewrite Z.ltb_lt. }
  split; [apply (sort_sorted score) |].
  intros v Hv. rewrite (filter_sort score). apply filter_filter_weaker.
  intros c Hc. apply Z.eqb_eq in Hc. apply Z.ltb_lt. lia.
Qed.

(** The example of the specification: for the query "a", "Apple" (25) comes
    before "Banana" and "Cabbage" (10 each), which keep their order. *)
Lemma searchChats_ranks_witness :
  searchChats "a" [Sample.banana; Sample.apple; Sample.cabbage]
    = [Sample.apple; Sample.banana; Sample.cabbage] /\
  StronglySorted
    (fun a b => scoreMatch (normalize (cs_title b)) ["a"%string]
                <= scoreMatch (normalize (cs_title a)) ["a"%string])
    (searchChats "a" [Sample.banana; Sample.apple; Sample.cabbage]).
Proof.
  split; [by vm_compute |].
  assert (trim "a" <> EmptyString) as Hne by discriminate.
  exact (proj1 (proj2 (proj2 (proj2 (proj2
    (searchChats_ranks "a" [Sample.banana; Sample.apple; Sample.cabbage] Hne)))))).
Defined.

(** C7 (blank query).  When the trimmed query is empty, [searchChats] returns
    the list it was given: the same elements in the same order.  (It returns
    its argument without building or changing any array.) *)
Theorem searchChats_blank_query query chats :
  trim query = EmptyString -> searchChats query chats = chats.
Proof. unfold searchChats. by intros ->. Qed.

Lemma searchChats_blank_query_witness :
  searchChats "   " [Sample.banana; Sample.apple; Sample.cabbage]
  = [Sample.banana; Sample.apple; Sample.cabbage].
Proof.
  apply (searchChats_blank_query "   "). reflexivity.
Defined.

End SearchFacts.

(** * Further properties *)

(** ** The registry on its own *)

Section ChatListMore.

Import ChatList.

Lemma titleOf_cons id c l :
  titleOf id (c :: l)
  = if String.eqb (cs_id c) id then Some (cs_title c) else titleOf id l.
Proof. unfold titleOf. cbn. by destruct (String.eqb (cs_id c) id). Qed.

Lemma registered_cons id c l :
  registered id (c :: l) <-> cs_id c = id \/ registered id l.
Proof. unfold registered. apply Exists_cons. Qed.

Lemma deleteChat_cons id c l :
  deleteChat id (c :: l)
  = if String.eqb (cs_id c) id then deleteChat id l else c :: deleteChat id l.
Proof. unfold deleteChat. cbn. by destruct (String.eqb (cs_id c) id). Qed.

Lemma deleteChat_unregistered id l : ~ registered id l -> deleteChat id l = l.
Proof.
  induction l as [| c l IH]; [done |]. rewrite registered_cons, deleteChat_cons.
  intros Hn. destruct (String.eqb_spec (cs_id c) id) as [He | _].
  - exfalso. apply Hn. by left.
  - f_equal. apply IH. intros H. apply Hn. by right.
Qed.

Lemma deleteChat_not_registered id l : ~ registered id (deleteChat id l).
Proof.
  induction l as [| c l IH]; [by intros H; inversion H |].
  rewrite deleteChat_cons.
  destruct (String.eqb_spec (cs_id c) id) as [He | Hne]; [done |].
  rewrite registered_cons. by intros [H | H].
Qed.

Lemma deleteChat_ids id l :
  map cs_id (deleteChat id l)
  = List.filter (fun i => negb (String.eqb i id)) (map cs_id l).
Proof.
  induction l as [| c l IH]; [done |]. rewrite deleteChat_cons. cbn.
  destruct (String.eqb (cs_id c) id); cbn; by rewrite IH.
Qed.

(** X1.  Deleting a session removes every entry of that id and nothing else: the
    id has no title left, the other sessions are the ones that were there,
    with the titles they had, and deleting an id the registry does not hold
    changes nothing. *)
Theorem deleteChat_removes_exactly id l :
  titleOf id (deleteChat id l) = None /\
  (forall id', id' <> id -> titleOf id' (deleteChat id l) = titleOf id' l) /\
  (forall c, c ∈ deleteChat id l <-> c ∈ l /\ cs_id c <> id) /\
  (~ registered id l -> deleteChat id l = l).
Proof.
  split.
  { pose proof (deleteChat_not_registered id l) as Hn.
    rewrite registered_titleOf in Hn.
    destruct (titleOf id (deleteChat id l)); [| done]. exfalso. eauto. }
  split.
  { intros id' Hne. induction l as [| c l IH]; [done |].
    rewrite deleteChat_cons, (titleOf_cons id' c l).
    destruct (String.eqb_spec (cs_id c) id) as [He | Hc].
    - destruct (String.eqb_spec (cs_id c) id'); [congruence | exact IH].
    - rewrite titleOf_cons. by rewrite IH. }
  split; [| apply deleteChat_unregistered].
  intros c. unfold deleteChat. rewrite !list_elem_of_In, filter_In.
  by rewrite negb_true_iff, String.eqb_neq.
Qed.

Lemma deleteChat_removes_exactly_witness :
  deleteChat "zzz" (chats Sample.two_chats) = chats Sample.two_chats.
Proof.
  apply (deleteChat_removes_exactly "zzz" (chats Sample.two_chats)).
  intros H. unfold registered in H. cbn in H.
  repeat (apply Exists_cons in H as [H | H]; [discriminate H |]).
  inversion H.
Defined.

(** X2.  Renaming touches titles only: the registry keeps its length, the ids
    and the creation times in their places; sessions of another id keep
    their title; and renaming an id the registry does not hold changes
    nothing. *)
Theorem renameChat_changes_titles_only id title l :
  map cs_id (renameChat id title l) = map cs_id l /\
  map cs_createdAt (renameChat id title l) = map cs_createdAt l /\
  (forall id', id' <> id -> titleOf id' (renameChat id title l) = titleOf id' l) /\
  (forall id', registered id' (renameChat id title l) <-> registered id' l) /\
  (~ registered id l -> renameChat id title l = l).
Proof.
  split; [apply renameChat_ids |].
  split.
  { unfold renameChat. induction l as [| c l IH]; [done |]. cbn. rewrite IH.
    by destruct (String.eqb (cs_id c) id). }
  split.
  { intros id' Hne. unfold renameChat.
    induction l as [| c l IH]; [done |]. cbn [map].
    rewrite !titleOf_cons, IH.
    destruct (String.eqb_spec (cs_id c) id) as [He | Hc]; [| done].
    cbn. destruct (String.eqb_spec (cs_id c) id'); [congruence | done]. }
  split; [| apply renameChat_unregistered].
  intros id'. unfold registered. rewrite !Exists_exists.
  split.
  - intros (c & Hc & Hid). unfold renameChat in Hc.
    apply list_elem_of_fmap in Hc as (c0 & -> & Hc0).
    exists c0. split; [done |].
    by destruct (String.eqb (cs_id c0) id).
  - intros (c & Hc & Hid).
    exists (if String.eqb (cs_id c) id then with_title c title else c).
    split.
    + unfold renameChat. apply list_elem_of_fmap. by exists c.
    + by destruct (String.eqb (cs_id c) id).
Qed.

Lemma renameChat_changes_titles_only_witness :
  renameChat "zzz" "Other" (chats Sample.two_chats) = chats Sample.two_chats.
Proof.
  apply (renameChat_changes_titles_only "zzz" "Other" (chats Sample.two_chats)).
  intros H. unfold registered in H. cbn in H.
  repeat (apply Exists_cons in H as [H | H]; [discriminate H |]).
  inversion H.
Defined.

(** X3.  Adding a session and deleting it again gives the registry back, provided
    its id was not in use; if it was, the delete also takes the older
    entries of that id. *)
Theorem deleteChat_addChat c l :
  deleteChat (cs_id c) (addChat c l) = deleteChat (cs_id c) l /\
  (~ registered (cs_id c) l -> deleteChat (cs_id c) (addChat c l) = l).
Proof.
  assert (deleteChat (cs_id c) (addChat c l) = deleteChat (cs_id c) l) as H.
  { unfold addChat. by rewrite deleteChat_cons, String.eqb_refl. }
  split; [exact H |]. intros Hn. rewrite H. by apply deleteChat_unregistered.
Qed.

Lemma deleteChat_addChat_witness :
  deleteChat "c" (addChat (mkChatSession "c" "Third" 30) (chats Sample.two_chats))
  = chats Sample.two_chats.
Proof.
  apply (deleteChat_addChat (mkChatSession "c" "Third" 30) (chats Sample.two_chats)).
  intros H. unfold registered in H. cbn in H.
  repeat (apply Exists_cons in H as [H | H]; [discriminate H |]).
  inversion H.
Defined.

End ChatListMore.

(** ** The message store on its own *)

Section ChatStoreMore.

Import JS ChatList ChatStore Spec.

Lemma read_insert (obj : gmap string Stored) id v k :
  read (<[id := v]> obj) k = if decide (id = k) then Some v else read obj k.
Proof.
  unfold read. rewrite lookup_insert. by destruct (decide (id = k)).
Qed.

Lemma read_own (obj : gmap string Stored) k v :
  obj !! k = Some v -> read obj k = Some v.
Proof. unfold read. by intros ->. Qed.

(** X4.  Switching to a chat loses nothing: every chat, the one switched to
    included, shows the messages it had; the registry is not touched (an id
    it does not hold is not added to it); and switching twice is switching
    once. *)
Theorem setActiveChat_keeps_messages id w :
  (forall k, messagesOr (chat (setActiveChat id w)) k = messagesOr (chat w) k) /\
  chats (setActiveChat id w) = chats w /\
  setActiveChat id (setActiveChat id w) = setActiveChat id w.
Proof.
  split.
  { intros k. unfold setActiveChat. unfold messagesOr at 1. cbn.
    rewrite read_insert. destruct (decide (id = k)) as [-> | _]; [| done].
    done. }
  split; [done |].
  unfold setActiveChat. cbn. f_equal. f_equal.
  unfold messagesOr at 1. cbn. rewrite read_insert, decide_True by done. cbn.
  by rewrite insert_insert_eq.
Qed.

(** X5.  [addMessage] appends when the target chat holds an array or
    nothing at all: the call returns, the target chat holds its earlier
    messages, in order, followed by the new one; the other chats keep
    theirs; the target becomes the active chat; and the registry keeps its
    length unless the chat id was null or empty, in which case it grows by
    one.  When the read of the target finds a member of [Object.prototype],
    stored or inherited, the call throws a [TypeError] and the message store
    is left as it was: nothing is appended and the active chat does not
    change. *)
Theorem addMessage_appends uuid now chatId m w :
  let s := target uuid chatId in
  let grown :=
    match chatId with
    | Some (String _ _) => length (chats w)
    | _ => S (length (chats w))
    end in
  (forall msgs,
     messagesByChatId (chat w) !! s = Some (Messages msgs) \/
     (messagesByChatId (chat w) !! s = None /\ inherited s = false /\ msgs = []) ->
     exists w',
       addMessage uuid now chatId m w = Returned w' /\
       messagesByChatId (chat w') !! s = Some (Messages (msgs ++ [m])%list) /\
       (forall k, k <> s ->
          messagesByChatId (chat w') !! k = messagesByChatId (chat w) !! k) /\
       activeChatId (chat w') = Some s /\
       length (chats w') = grown) /\
  ((exists key, messagesByChatId (chat w) !! s = Some (Member key)) \/
   (messagesByChatId (chat w) !! s = None /\ inherited s = true) ->
   exists w',
     addMessage uuid now chatId m w = Raised TypeError w' /\
     chat w' = chat w /\
     length (chats w') = grown).
Proof.
  intros s grown. rewrite addMessage_eq. cbn zeta. fold s.
  assert (forall (b : bool) title,
            length (if b then renameChat s title
                                (if truthy chatId then chats w
                                 else new_chat uuid now :: chats w)
                    else if truthy chatId then chats w
                         else new_chat uuid now :: chats w) = grown) as Hlen.
  { intros b title. destruct b; rewrite ?renameChat_length;
      subst grown; by destruct chatId as [[|] |]. }
  split.
  - intros msgs Hmsgs.
    assert (messagesOr (chat w) s = Messages msgs) as ->.
    { destruct Hmsgs as [H | (H1 & H2 & ->)];
        [by apply messagesOr_own | by apply messagesOr_missing]. }
    eexists. split; [reflexivity |]. cbn.
    split; [by rewrite lookup_insert_eq |].
    split; [intros k Hk; by rewrite lookup_insert_ne |].
    split; [done | apply Hlen].
  - intros Hmember.
    assert (exists key, messagesOr (chat w) s = Member key) as [key ->].
    { destruct Hmember as [[key H] | [H1 H2]].
      - exists key. by apply messagesOr_own.
      - exists s. by apply messagesOr_inherited. }
    eexists. split; [reflexivity |]. cbn. split; [done | apply Hlen].
Qed.

Lemma addMessage_appends_witness :
  exists w',
    addMessage Sample.uuid1 50 (Some "a") Sample.hello_again Sample.two_chats
    = Returned w' /\
    messagesByChatId (chat w') !! "a"
    = Some (Messages [Sample.hello; Sample.reply; Sample.hello_again]).
Proof.
  destruct (proj1 (addMessage_appends Sample.uuid1 50 (Some "a") Sample.hello_again
                     Sample.two_chats) [Sample.hello; Sample.reply])
    as (w' & Hret & Hm & _); [left; by vm_compute |].
  exists w'. by split.
Defined.

(** X6.  The title is derived at most once: once [addMessage] has returned,
    having appended a message to a chat, a further [addMessage] to that chat
    returns too and never changes the registry, whatever the roles of the
    two messages. *)
Theorem addMessage_renames_at_most_once uuid now chatId m1 uuid' now' m2 w w1 :
  let s := target uuid chatId in
  addMessage uuid now chatId m1 w = Returned w1 ->
  s <> EmptyString ->
  exists w2,
    addMessage uuid' now' (Some s) m2 w1 = Returned w2 /\
    chats w2 = chats w1.
Proof.
  intros s Hret Hne.
  assert (exists msgs,
            messagesByChatId (chat w1) !! s = Some (Messages (msgs ++ [m1])%list))
    as [msgs Hs].
  { rewrite addMessage_eq in Hret. cbn zeta in Hret. fold s in Hret.
    destruct (messagesOr (chat w) s) as [msgs | key]; [| done].
    injection Hret as <-. exists msgs. cbn. by rewrite lookup_insert_eq. }
  rewrite (addMessage_eq uuid' now' (Some s) m2 w1). cbn zeta.
  assert (truthy (Some s) = true) as Ht by (by apply truthy_Some_iff).
  assert (target uuid' (Some s) = s) as -> by (unfold target; by rewrite Ht).
  rewrite Ht, (messagesOr_own _ _ _ Hs).
  assert (lengthIsZero (Messages (msgs ++ [m1])%list) = false) as ->.
  { cbn. rewrite length_app. cbn. by rewrite Nat.add_1_r. }
  rewrite andb_false_r. eauto.
Qed.

Lemma addMessage_renames_at_most_once_witness :
  exists w1 w2,
    addMessage Sample.uuid1 60 None Sample.reply ChatStore.init = Returned w1 /\
    addMessage Sample.uuid2 70 (Some Sample.uuid1) Sample.hello w1 = Returned w2 /\
    chats w2
    = [ {| cs_id := Sample.uuid1; cs_title := "New Chat"; cs_createdAt := 60 |} ].
Proof.
  assert (target Sample.uuid1 None <> EmptyString) as Hne by discriminate.
  eexists.
  destruct (addMessage_renames_at_most_once Sample.uuid1 60 None Sample.reply
              Sample.uuid2 70 Sample.hello ChatStore.init _ eq_refl Hne)
    as (w2 & Hret & Hc).
  exists w2. split; [reflexivity |]. split; [exact Hret |]. exact Hc.
Defined.

Lemma World_eta w :
  {| chats := chats w;
     chat := {| activeChatId := activeChatId (chat w);
                messagesByChatId := messagesByChatId (chat w) |} |} = w.
Proof. by destruct w as [? []]. Qed.

Lemma map_update_absent id content (msgs : list Message) :
  Forall (fun x => msg_id x <> id) msgs ->
  map (fun msg => if String.eqb (msg_id msg) id
                  then with_content msg content else msg) msgs = msgs.
Proof.
  induction 1 as [| x msgs Hx _ IH]; [done |]. cbn. rewrite IH.
  by destruct (String.eqb_spec (msg_id x) id).
Qed.

(** X7.  Editing a message that the chat does not hold is a silent no-op:
    for a chat that has an entry in the mapping, [updateMessage] with a
    message id none of its messages carries returns normally and leaves both
    stores exactly as they were. *)
Theorem updateMessage_unknown_message c mid content w msgs :
  c <> EmptyString ->
  messagesByChatId (chat w) !! c = Some (Messages msgs) ->
  Forall (fun x => msg_id x <> mid) msgs ->
  updateMessage (Some c) mid content w = Normal w.
Proof.
  intros Hne Hc Hall. unfold updateMessage.
  apply truthy_Some_iff in Hne. rewrite Hne. cbn. rewrite (read_own _ _ _ Hc).
  rewrite map_update_absent by done.
  rewrite insert_id by done. by rewrite World_eta.
Qed.

Lemma updateMessage_unknown_message_witness :
  updateMessage (Some "a") "no-such-message" "edited" Sample.two_chats
  = Normal Sample.two_chats.
Proof.
  apply (updateMessage_unknown_message "a" "no-such-message" "edited"
           Sample.two_chats [Sample.hello; Sample.reply]).
  - discriminate.
  - by vm_compute.
  - repeat constructor; discriminate.
Defined.

(** X8.  The last edit wins: editing a message and then editing it again
    gives the stores the second edit alone gives. *)
Theorem updateMessage_last_edit_wins chatId mid content1 content2 w w1 :
  updateMessage chatId mid content1 w = Normal w1 ->
  updateMessage chatId mid content2 w1 = updateMessage chatId mid content2 w.
Proof.
  unfold updateMessage. destruct (truthy chatId); cbn; [| congruence].
  set (cid := default EmptyString chatId).
  destruct (read (messagesByChatId (chat w)) cid) as [[msgs | key] |] eqn:Hc;
    [| done | done].
  intros [= <-]. cbn. rewrite read_insert, decide_True by done.
  rewrite insert_insert_eq.
  do 5 f_equal. rewrite map_map. apply map_ext. intros x.
  destruct (String.eqb_spec (msg_id x) mid) as [He | Hne]; cbn.
  - by rewrite He, String.eqb_refl.
  - by destruct (String.eqb_spec (msg_id x) mid).
Qed.

Lemma updateMessage_last_edit_wins_witness :
  exists w1,
    updateMessage (Some "a") "1700000000000" "first" Sample.two_chats = Normal w1 /\
    updateMessage (Some "a") "1700000000000" "second" w1
    = updateMessage (Some "a") "1700000000000" "second" Sample.two_chats.
Proof.
  eexists. split; [reflexivity |].
  apply (updateMessage_last_edit_wins (Some "a") "1700000000000" "first" "second"
           Sample.two_chats).
  reflexivity.
Defined.

End ChatStoreMore.

(** ** Strings, queries and scores *)

Section SearchMore.

Import JS Spec Search.
Local Open Scope Z_scope.

Lemma trimStart_empty_iff s : trimStart s = EmptyString <-> allWs s.
Proof.
  unfold allWs. induction s as [| c s IH]; cbn; [done |].
  destruct (isWhiteSpace c); cbn; [exact IH | done].
Qed.

Lemma trim_empty_iff s : trim s = EmptyString <-> allWs s.
Proof.
  rewrite <- trimStart_empty_iff. unfold trim. split.
  - intros He. destruct (trimStart_starts s) as [H | H]; [done |].
    apply trimEnd_starts in H. by rewrite He in H.
  - by intros ->.
Qed.

Lemma trimEnd_fixed s : endsWs s = false -> trimEnd s = s.
Proof.
  induction s as [| c s IH]; [done |]. intros He.
  destruct s as [| d s].
  - cbn in *. by rewrite He.
  - change (trimEnd (String c (String d s)))
      with (match trimEnd (String d s) with
            | EmptyString =>
                if isWhiteSpace c then EmptyString else String c EmptyString
            | t => String c t
            end).
    by rewrite IH.
Qed.

Lemma trimStart_fixed s : startsNonWs s -> trimStart s = s.
Proof. destruct s as [| c s]; cbn; [done |]. by intros ->. Qed.

Lemma trim_idempotent s : trim (trim s) = trim s.
Proof.
  destruct (decide (trim s = EmptyString)) as [-> | Hne]; [done |].
  destruct (trim_shape s Hne) as [Hs He].
  unfold trim at 1. by rewrite trimStart_fixed, trimEnd_fixed.
Qed.

Lemma lowerChar_idempotent c : lowerChar (lowerChar c) = lowerChar c.
Proof. by destruct c as [[] [] [] [] [] [] [] []]. Qed.

Lemma toLowerCase_idempotent s : toLowerCase (toLowerCase s) = toLowerCase s.
Proof.
  induction s as [| c s IH]; [done |]. cbn. by rewrite lowerChar_idempotent, IH.
Qed.

Lemma normalize_idempotent s : normalize (normalize s) = normalize s.
Proof.
  unfold normalize.
  by rewrite <- trim_toLowerCase, toLowerCase_idempotent, trim_idempotent.
Qed.

Lemma normalize_empty_iff s : normalize s = EmptyString <-> trim s = EmptyString.
Proof. unfold normalize. by rewrite trim_toLowerCase, toLowerCase_empty. Qed.

(** X9.  The search looks at the query through [normalize] only: two queries
    with the same lower-cased, trimmed form give the same result on every
    list.  So the case of the query and the white space around it make no
    difference. *)
Theorem searchChats_query_normal_form chats :
  (forall q q', normalize q = normalize q' ->
     searchChats q chats = searchChats q' chats) /\
  (forall q, searchChats (toLowerCase q) chats = searchChats q chats) /\
  (forall q, searchChats (trim q) chats = searchChats q chats) /\
  (forall q, searchChats (normalize q) chats = searchChats q chats).
Proof.
  assert (forall q q', normalize q = normalize q' ->
            searchChats q chats = searchChats q' chats) as H.
  { intros q q' Hn. unfold searchChats. rewrite Hn.
    assert (truthy (Some (trim q)) = truthy (Some (trim q'))) as ->; [| done].
    destruct (decide (trim q = EmptyString)) as [He | Hne].
    - assert (trim q' = EmptyString) as ->
        by (by rewrite <- normalize_empty_iff, <- Hn, normalize_empty_iff).
      by rewrite He.
    - assert (trim q' <> EmptyString) as Hne'
        by (by rewrite <- normalize_empty_iff, <- Hn, normalize_empty_iff).
      apply truthy_Some_iff in Hne, Hne'. congruence. }
  split; [exact H |].
  split; [| split]; intros q; apply H.
  - unfold normalize. by rewrite toLowerCase_idempotent.
  - unfold normalize. by rewrite <- trim_toLowerCase, trim_idempotent.
  - apply normalize_idempotent.
Qed.

Lemma searchChats_query_normal_form_witness :
  searchChats "  BaN " [Sample.banana; Sample.apple; Sample.cabbage]
  = searchChats "ban" [Sample.banana; Sample.apple; Sample.cabbage].
Proof.
  apply (searchChats_query_normal_form
           [Sample.banana; Sample.apple; Sample.cabbage]).
  reflexivity.
Defined.

Lemma scoreMatch_app text tokens tokens' :
  scoreMatch text (tokens ++ tokens')%list
  = scoreMatch text tokens + scoreMatch text tokens'.
Proof.
  induction tokens as [| t tokens IH]; [done |].
  cbn [app]. rewrite !scoreMatch_cons, IH. lia.
Qed.

Lemma scoreMatch_perm text tokens tokens' :
  tokens ≡ₚ tokens' -> scoreMatch text tokens = scoreMatch text tokens'.
Proof.
  induction 1 as [| t l l' _ IH | t t' l | l l' l'' _ IH1 _ IH2];
    rewrite ?scoreMatch_cons; [done | lia | lia | congruence].
Qed.

Lemma scoreMatch_bounds text tokens :
  0 <= scoreMatch text tokens <= 25 * Z.of_nat (length tokens).
Proof.
  induction tokens as [| t tokens IH]; [done |].
  rewrite scoreMatch_cons. cbn [length]. rewrite Nat2Z.inj_succ.
  destruct (includes text t), (startsWith text t); lia.
Qed.

(** X10.  The score does not depend on the order of the query words, it adds up
    over them, and it lies between 0 and 25 times their number. *)
Theorem scoreMatch_order_and_bounds text tokens :
  (forall tokens', tokens ≡ₚ tokens' ->
     scoreMatch text tokens = scoreMatch text tokens') /\
  (forall tokens', scoreMatch text (tokens ++ tokens')%list
                   = scoreMatch text tokens + scoreMatch text tokens') /\
  0 <= scoreMatch text tokens <= 25 * Z.of_nat (length tokens).
Proof.
  split; [apply scoreMatch_perm |].
  split; [apply scoreMatch_app | apply scoreMatch_bounds].
Qed.

Lemma scoreMatch_order_and_bounds_witness :
  scoreMatch "banana" ["an"; "b"]%string = scoreMatch "banana" ["b"; "an"]%string.
Proof.
  exact (proj1 (scoreMatch_order_and_bounds "banana" ["an"; "b"]%string)
           ["b"; "an"]%string (perm_swap _ _ _)).
Defined.

Lemma scoreMatch_positive_iff text tokens :
  0 < scoreMatch text tokens <-> exists t, t ∈ tokens /\ substring_of t text.
Proof.
  induction tokens as [| t tokens IH].
  - split; [by cbv | intros (t & Ht & _); by apply elem_of_nil in Ht].
  - rewrite scoreMatch_cons.
    pose proof (scoreMatch_bounds text tokens) as Hb.
    destruct (includes text t) eqn:Hi.
    + split; [| destruct (startsWith text t); lia].
      intros _. exists t. split; [by left | by apply includes_substring_of].
    + assert (startsWith text t = false) as ->.
      { destruct (startsWith text t) eqn:Hp; [| done].
        apply startsWith_includes in Hp. congruence. }
      rewrite Z.add_0_l, IH. split.
      * intros (t' & Ht' & Hs). exists t'. split; [by right | done].
      * intros (t' & Ht' & Hs). apply elem_of_cons in Ht' as [-> | Ht'].
        -- apply includes_substring_of in Hs. congruence.
        -- by exists t'.
Qed.

Lemma tokenized_nonempty s tokens :
  tokenized s tokens -> Forall (fun t => t <> EmptyString) tokens.
Proof. induction 1; by constructor. Qed.

Lemma substring_of_empty_text t : substring_of t EmptyString -> t = EmptyString.
Proof.
  intros (pre & post & H). destruct pre; [| discriminate H].
  destruct t; [done | discriminate H].
Qed.

Lemma searchChats_elem query chats c :
  trim query <> EmptyString ->
  c ∈ searchChats query chats <->
  c ∈ chats /\
  exists t, t ∈ split_ws (normalize query) /\
            substring_of t (normalize (cs_title c)).
Proof.
  intros Hne. rewrite searchChats_unfold by done. cbn zeta.
  rewrite (sort_perm (fun c => scoreMatch (normalize (cs_title c))
                                 (split_ws (normalize query)))).
  rewrite !list_elem_of_In, filter_In, Z.ltb_lt, scoreMatch_positive_iff.
  by setoid_rewrite list_elem_of_In.
Qed.

(** X11.  What the search finds.  For a query that is not blank, a chat is in the
    result exactly when it is in the list and at least one word of the query
    occurs in its title (both lower-cased and trimmed): the words are
    alternatives, not joint requirements.  A chat whose title is blank is
    therefore never found. *)
Theorem searchChats_finds_any_word query chats c :
  trim query <> EmptyString ->
  (c ∈ searchChats query chats <->
   c ∈ chats /\
   exists t, t ∈ split_ws (normalize query) /\
             substring_of t (normalize (cs_title c))) /\
  (trim (cs_title c) = EmptyString -> c ∉ searchChats query chats).
Proof.
  intros Hne. split; [by apply searchChats_elem |].
  intros Hblank. rewrite searchChats_elem by done.
  intros (_ & t & Ht & Hsub).
  apply normalize_empty_iff in Hblank. rewrite Hblank in Hsub.
  apply substring_of_empty_text in Hsub. subst t.
  destruct (normalize_shape query Hne) as [Hs He].
  pose proof (tokenized_nonempty _ _ (split_ws_trimmed _ Hs He)) as Hall.
  rewrite Forall_forall in Hall. by apply (Hall EmptyString).
Qed.

Lemma searchChats_finds_any_word_witness :
  Sample.cabbage ∈ searchChats "zebra CAB" [Sample.banana; Sample.apple; Sample.cabbage].
Proof.
  assert (trim "zebra CAB" <> EmptyString) as Hne by discriminate.
  apply (searchChats_finds_any_word "zebra CAB"
           [Sample.banana; Sample.apple; Sample.cabbage] Sample.cabbage Hne).
  split; [by repeat constructor |].
  exists "cab"%string. split; [by repeat constructor |].
  by exists EmptyString, "bage"%string.
Defined.

(** The first result is a best match: no chat of the list scores higher. *)
Lemma searchChats_head_best query chats c rest :
  trim query <> EmptyString ->
  searchChats query chats = c :: rest ->
  let score := fun c =>
    scoreMatch (normalize (cs_title c)) (split_ws (normalize query)) in
  0 < score c /\ c ∈ chats /\ forall c', c' ∈ chats -> score c' <= score c.
Proof.
  intros Hne Hres score.
  pose proof (searchChats_unfold query chats Hne) as Hun. cbn zeta in Hun.
  fold score in Hun. rewrite Hres in Hun.
  pose proof (sort_perm score (List.filter (fun c => 0 <? score c) chats)) as Hp.
  pose proof (sort_sorted score (List.filter (fun c => 0 <? score c) chats)) as Hs.
  unfold descending in Hp, Hs. rewrite <- Hun in Hp, Hs.
  assert (forall x, x ∈ c :: rest <-> x ∈ chats /\ 0 < score x) as Hin.
  { intros x. rewrite Hp, !list_elem_of_In, filter_In. by rewrite Z.ltb_lt. }
  destruct (proj1 (Hin c) ltac:(by left)) as [Hc Hpos].
  split; [done |]. split; [done |]. intros c' Hc'.
  destruct (Z.lt_ge_cases 0 (score c')) as [Hp' | Hnp]; [| lia].
  apply StronglySorted_inv in Hs as [_ Hall]. rewrite Forall_forall in Hall.
  pose proof (proj2 (Hin c') (conj Hc' Hp')) as Hmem.
  apply elem_of_cons in Hmem as [-> | Hr]; [lia |].
  by apply Hall.
Qed.

End SearchMore.

(** ** The composer *)

Section ChatInputMore.

Import JS ChatList ChatStore Spec ChatInput.

Lemma to_int_not_nil z :
  Z.to_int z <> Decimal.Pos Decimal.Nil /\ Z.to_int z <> Decimal.Neg Decimal.Nil.
Proof.
  assert (Z.to_int z = Decimal.norm (Z.to_int z)) as ->
    by (by rewrite <- DecimalZ.to_of, DecimalZ.of_to).
  destruct (Z.to_int z) as [d | d]; cbn.
  - split; [| done]. intros [= H]. by apply DecimalFacts.unorm_nonnil in H.
  - destruct (Decimal.nzhead d) eqn:Hd; split; done.
Qed.

Lemma numberToString_inj a b : numberToString a = numberToString b -> a = b.
Proof.
  unfold numberToString. intros H.
  apply (f_equal NilZero.int_of_string) in H.
  destruct (to_int_not_nil a) as [Ha1 Ha2], (to_int_not_nil b) as [Hb1 Hb2].
  rewrite !NilZero.isi in H by done.
  injection H as H. by apply DecimalZ.to_int_inj.
Qed.

Lemma string_length_zero s : String.length s = 0%nat <-> s = EmptyString.
Proof. by destruct s. Qed.

Lemma canSend_false_iff isStreaming st :
  canSend isStreaming st = false <->
  isStreaming = true \/ (trim (input st) = EmptyString /\ files st = []).
Proof.
  unfold canSend. rewrite andb_false_iff, orb_false_iff, negb_false_iff.
  rewrite !Nat.ltb_ge, !Nat.le_0_r, string_length_zero, length_zero_iff_nil.
  done.
Qed.

Lemma handleSubmit_blocked_eq env isStreaming st w :
  canSend isStreaming st = false ->
  handleSubmit env isStreaming st w = Returned (w, st, None).
Proof. unfold handleSubmit. by intros ->. Qed.

Lemma handleSubmit_new_eq env isStreaming st w :
  canSend isStreaming st = true -> truthy (activeChatId (chat w)) = false ->
  handleSubmit env isStreaming st w
  = match addMessage (env_uuid' env) (env_created' env) (Some (env_uuid env))
            (UI.submitted env st)
            (createNewChat (env_uuid env) (env_created env) w).1 with
    | Returned w2 => Returned (w2, UI.cleared, Some ("/c/" ++ env_uuid env))
    | Raised e w2 => Raised e (w2, st, Some ("/c/" ++ env_uuid env))
    end.
Proof. unfold handleSubmit. by intros -> ->. Qed.

Lemma handleSubmit_active_eq env isStreaming st w :
  canSend isStreaming st = true -> truthy (activeChatId (chat w)) = true ->
  handleSubmit env isStreaming st w
  = match addMessage (env_uuid' env) (env_created' env) (activeChatId (chat w))
            (UI.submitted env st) w with
    | Returned w2 => Returned (w2, UI.cleared, None)
    | Raised e w2 => Raised e (w2, st, None)
    end.
Proof. unfold handleSubmit. by intros -> ->. Qed.

(** The send that follows [createNewChat] finds the empty array written
    for the generated id, and returns. *)
Lemma addMessage_after_createNewChat uuid' now' uuid now m w :
  uuid <> EmptyString ->
  ~ registered uuid (chats w) ->
  addMessage uuid' now' (Some uuid) m (createNewChat uuid now w).1
  = Returned
      {| chats := {| cs_id := uuid;
                     cs_title := if is_user (msg_role m)
                                 then first_chars 40 (msg_content m)
                                 else "New Chat";
                     cs_createdAt := now |} :: chats w;
         chat := {| activeChatId := Some uuid;
                    messagesByChatId :=
                      <[uuid := Messages [m]]> (messagesByChatId (chat w)) |} |}.
Proof.
  intros Hne Hreg. pose proof Hne as Htr. apply truthy_Some_iff in Htr.
  rewrite addMessage_eq. cbn zeta.
  assert (target uuid' (Some uuid) = uuid) as -> by (unfold target; by rewrite Htr).
  rewrite Htr.
  assert (messagesOr (chat (createNewChat uuid now w).1) uuid = Messages []) as ->
    by (apply messagesOr_own; cbn; by rewrite lookup_insert_eq).
  cbn [lengthIsZero length Nat.eqb app]. rewrite andb_true_r.
  cbn [createNewChat fst chats chat messagesByChatId]. rewrite insert_insert_eq.
  do 2 f_equal. unfold addChat.
  destruct (is_user (msg_role m)); [| done].
  unfold renameChat at 1. cbn. rewrite String.eqb_refl. f_equal.
  by apply renameChat_unregistered.
Qed.

(** X12.  When the composer sends and when it does not: [handleSubmit]
    returns with the stores, the text and the attachments untouched and
    navigates nowhere exactly when a response is streaming or there is
    neither text other than white space nor an attachment. *)
Theorem handleSubmit_blocked_iff env isStreaming st w :
  handleSubmit env isStreaming st w = Returned (w, st, None) <->
  isStreaming = true \/ (trim (input st) = EmptyString /\ files st = []).
Proof.
  rewrite <- canSend_false_iff. split; [| apply handleSubmit_blocked_eq].
  destruct (canSend isStreaming st) eqn:Hc; [| done]. intros H. exfalso.
  assert (st = UI.cleared) as ->.
  { destruct (truthy (activeChatId (chat w))) eqn:Ht.
    - rewrite handleSubmit_active_eq in H by done.
      destruct (addMessage _ _ _ _ w); [congruence | done].
    - rewrite handleSubmit_new_eq in H by done.
      destruct (addMessage _ _ _ _ _); [congruence | done]. }
  by destruct isStreaming.
Qed.

Lemma handleSubmit_blocked_iff_witness :
  handleSubmit Scenario.env1 true Scenario.draft Sample.two_chats
  = Returned (Sample.two_chats, Scenario.draft, None).
Proof.
  apply (handleSubmit_blocked_iff Scenario.env1 true Scenario.draft Sample.two_chats).
  by left.
Defined.

(** X13.  The first message of a conversation.  With no active chat, and a
    generated id that is non-empty and new to both stores, a send returns
    and puts one entry in front of the registry, titled with the first 40
    characters of the text exactly as typed; stores the message, with the
    text as typed as its content, as the only message of the new chat; makes
    that chat the active one, whose messages the page then shows; navigates
    to the chat; and empties the composer.  The other chats keep their
    messages. *)
Theorem handleSubmit_starts_conversation env isStreaming st w :
  canSend isStreaming st = true ->
  truthy (activeChatId (chat w)) = false ->
  env_uuid env <> EmptyString ->
  fresh (env_uuid env) w ->
  let w' := (after (handleSubmit env isStreaming st w)).1.1 in
  handleSubmit env isStreaming st w
    = Returned (w', UI.cleared, Some ("/c/" ++ env_uuid env)) /\
  chats w' = {| cs_id := env_uuid env;
                cs_title := first_chars 40 (input st);
                cs_createdAt := env_created env |} :: chats w /\
  messagesByChatId (chat w') !! env_uuid env
    = Some (Messages [UI.submitted env st]) /\
  (forall k, k <> env_uuid env ->
     messagesByChatId (chat w') !! k = messagesByChatId (chat w) !! k) /\
  activeChatId (chat w') = Some (env_uuid env) /\
  ChatPage.messages (chat w') = Messages [UI.submitted env st] /\
  ChatPage.render (chat w') = Normal (ChatPage.MessageList [UI.submitted env st]).
Proof.
  intros Hc Ht Hne [Hmap Hreg]. cbn zeta.
  rewrite handleSubmit_new_eq by done.
  rewrite addMessage_after_createNewChat by done. cbn [after fst].
  split; [done |]. cbn [chats chat messagesByChatId activeChatId].
  split; [done |].
  split; [by rewrite lookup_insert_eq |].
  split; [intros k Hk; by rewrite lookup_insert_ne |].
  split; [done |].
  pose proof Hne as Htr. apply truthy_Some_iff in Htr.
  assert (ChatPage.messages
            {| activeChatId := Some (env_uuid env);
               messagesByChatId :=
                 <[env_uuid env := Messages [UI.submitted env st]]>
                   (messagesByChatId (chat w)) |}
          = Messages [UI.submitted env st]) as Hm.
  { unfold ChatPage.messages. cbn [activeChatId]. rewrite Htr.
    apply messagesOr_own. cbn. by rewrite lookup_insert_eq. }
  split; [exact Hm |].
  unfold ChatPage.render, ChatPage.isEmpty. by rewrite Hm.
Qed.

Lemma handleSubmit_starts_conversation_witness :
  chats (after (handleSubmit Scenario.env1 false Scenario.draft ChatStore.init)).1.1
  = [ {| cs_id := Sample.uuid1; cs_title := "  How do I sort a list?  ";
         cs_createdAt := 100 |} ].
Proof.
  assert (fresh Sample.uuid1 ChatStore.init) as Hfresh.
  { split; [done |]. intros H. inversion H. }
  assert (env_uuid Scenario.env1 <> EmptyString) as Hne by discriminate.
  exact (proj1 (proj2
    (handleSubmit_starts_conversation Scenario.env1 false Scenario.draft
       ChatStore.init eq_refl eq_refl Hne Hfresh))).
Defined.

(** X14.  A further message.  With the non-empty chat id [a] active and a
    message sequence stored for it, a send returns and appends the message
    to [a], which stays the active chat; creates no session and removes
    none; asks for no navigation; empties the composer; and leaves the whole
    registry as it is when [a] already had a message.  When what is stored
    for [a] is a member of [Object.prototype] (the chat was opened by an
    address such as ["/c/toString"]), the send throws a [TypeError]: nothing
    is appended, the composer keeps its text and files, and the registry
    keeps its sessions. *)
Theorem handleSubmit_continues_conversation env isStreaming st w a :
  canSend isStreaming st = true ->
  activeChatId (chat w) = Some a -> a <> EmptyString ->
  (forall msgs,
     messagesByChatId (chat w) !! a = Some (Messages msgs) ->
     exists w',
       handleSubmit env isStreaming st w = Returned (w', UI.cleared, None) /\
       messagesByChatId (chat w') !! a
         = Some (Messages (msgs ++ [UI.submitted env st])%list) /\
       (forall k, k <> a ->
          messagesByChatId (chat w') !! k = messagesByChatId (chat w) !! k) /\
       activeChatId (chat w') = Some a /\
       map cs_id (chats w') = map cs_id (chats w) /\
       (msgs <> [] -> chats w' = chats w)) /\
  (forall key,
     messagesByChatId (chat w) !! a = Some (Member key) ->
     exists w',
       handleSubmit env isStreaming st w = Raised TypeError (w', st, None) /\
       chat w' = chat w /\
       map cs_id (chats w') = map cs_id (chats w)).
Proof.
  intros Hc Ha Hne.
  pose proof Hne as Htr. apply truthy_Some_iff in Htr.
  rewrite handleSubmit_active_eq by (by rewrite ?Ha).
  rewrite Ha, addMessage_eq. cbn zeta.
  assert (target (env_uuid' env) (Some a) = a) as -> by (unfold target; by rewrite Htr).
  rewrite Htr.
  split.
  - intros msgs Hm. rewrite (messagesOr_own _ _ _ Hm).
    eexists. split; [reflexivity |].
    cbn [chat chats messagesByChatId activeChatId].
    split; [by rewrite lookup_insert_eq |].
    split; [intros k Hk; by rewrite lookup_insert_ne |].
    split; [done |].
    split.
    + destruct (_ && _); [apply renameChat_ids | done].
    + intros Hnonempty. destruct msgs; [done |].
      cbn. by rewrite ?andb_false_r.
  - intros key Hm. rewrite (messagesOr_own _ _ _ Hm).
    eexists. split; [reflexivity |]. cbn [chat chats].
    split; [done |].
    destruct (_ && _); [apply renameChat_ids | done].
Qed.

Lemma handleSubmit_continues_conversation_witness :
  exists w',
    handleSubmit Scenario.env1 false Scenario.draft Sample.two_chats
    = Returned (w', UI.cleared, None) /\
    chats w' = chats Sample.two_chats.
Proof.
  assert ("a"%string <> EmptyString) as Hne by discriminate.
  destruct (proj1 (handleSubmit_continues_conversation Scenario.env1 false
                     Scenario.draft Sample.two_chats "a" eq_refl eq_refl Hne)
              [Sample.hello; Sample.reply])
    as (w' & Hret & _ & _ & _ & _ & Hc); [by vm_compute |].
  exists w'. split; [exact Hret |]. by apply Hc.
Defined.

(** X15.  One id per send: when the id generated for the new chat is not
    empty, [handleSubmit] never gets to the auto-create branch of
    [addMessage]: what the second [crypto.randomUUID()] and [Date.now()]
    would return has no influence on the outcome. *)
Theorem handleSubmit_generates_one_id env isStreaming st w uuid' created' :
  env_uuid env <> EmptyString ->
  handleSubmit
    {| env_uuid := env_uuid env; env_created := env_created env;
       env_id_time := env_id_time env; env_timestamp := env_timestamp env;
       env_uuid' := uuid'; env_created' := created' |} isStreaming st w
  = handleSubmit env isStreaming st w.
Proof.
  intros Hne. apply truthy_Some_iff in Hne.
  assert (forall u c u2 c2 (s : string) m w0, truthy (Some s) = true ->
            addMessage u c (Some s) m w0 = addMessage u2 c2 (Some s) m w0) as Hadd.
  { intros u c u2 c2 s m w0 Hs. unfold addMessage. by rewrite Hs. }
  destruct (canSend isStreaming st) eqn:Hc.
  2:{ by rewrite !handleSubmit_blocked_eq. }
  destruct (truthy (activeChatId (chat w))) eqn:Ht.
  - rewrite !handleSubmit_active_eq by done.
    destruct (activeChatId (chat w)) as [a |]; [| done].
    cbn. by rewrite (Hadd uuid' created' (env_uuid' env) (env_created' env)).
  - rewrite !handleSubmit_new_eq by done. cbn.
    by rewrite (Hadd uuid' created' (env_uuid' env) (env_created' env)).
Qed.

Lemma handleSubmit_generates_one_id_witness :
  handleSubmit
    {| env_uuid := Sample.uuid1; env_created := 100; env_id_time := 101;
       env_timestamp := 102; env_uuid' := "other"; env_created' := 999 |}
    false Scenario.draft ChatStore.init
  = handleSubmit Scenario.env1 false Scenario.draft ChatStore.init.
Proof.
  assert (env_uuid Scenario.env1 <> EmptyString) as Hne by discriminate.
  exact (handleSubmit_generates_one_id Scenario.env1 false Scenario.draft
           ChatStore.init "other" 999 Hne).
Defined.

Lemma allWs_first_chars n s : allWs s -> allWs (first_chars n s).
Proof.
  unfold allWs, first_chars. revert n.
  induction s as [| c s IH]; intros [| n]; cbn; try done.
  intros [Hc Hs]%andb_true_iff. rewrite Hc. cbn. by apply IH.
Qed.

Lemma handleSubmit_new_chats env isStreaming st w :
  canSend isStreaming st = true ->
  truthy (activeChatId (chat w)) = false ->
  env_uuid env <> EmptyString ->
  ~ registered (env_uuid env) (chats w) ->
  chats (after (handleSubmit env isStreaming st w)).1.1
  = {| cs_id := env_uuid env;
       cs_title := first_chars 40 (input st);
       cs_createdAt := env_created env |} :: chats w.
Proof.
  intros Hc Ht Hne Hreg.
  rewrite handleSubmit_new_eq by done.
  by rewrite addMessage_after_createNewChat.
Qed.

(** X16.  Sending attachments without text starts a chat nobody can search
    for: with at least one file attached and nothing but white space typed,
    a send from the empty state registers the new chat under a blank title,
    and no query that is not blank ever returns that entry. *)
Theorem handleSubmit_attachments_only env st w :
  files st <> [] -> trim (input st) = EmptyString ->
  truthy (activeChatId (chat w)) = false ->
  env_uuid env <> EmptyString -> fresh (env_uuid env) w ->
  let w' := (after (handleSubmit env false st w)).1.1 in
  exists c,
    chats w' = c :: chats w /\
    cs_id c = env_uuid env /\
    trim (cs_title c) = EmptyString /\
    forall query, trim query <> EmptyString ->
      c ∉ Search.searchChats query (chats w').
Proof.
  intros Hfiles Hblank Ht Hne [_ Hreg]. cbn zeta.
  assert (canSend false st = true) as Hc.
  { unfold canSend. destruct (files st); [done |]. cbn. apply orb_true_r. }
  rewrite handleSubmit_new_chats by done.
  eexists. split; [reflexivity |]. split; [done |].
  assert (trim (first_chars 40 (input st)) = EmptyString) as Htitle.
  { apply trim_empty_iff, allWs_first_chars. by apply trim_empty_iff. }
  split; [exact Htitle |].
  intros query Hq. rewrite searchChats_elem by done. cbn [cs_title].
  intros (_ & t & Hin & Hsub).
  apply normalize_empty_iff in Htitle. rewrite Htitle in Hsub.
  apply substring_of_empty_text in Hsub. subst t.
  destruct (normalize_shape query Hq) as [Hs He].
  pose proof (tokenized_nonempty _ _ (split_ws_trimmed _ Hs He)) as Hall.
  rewrite Forall_forall in Hall. by apply (Hall EmptyString).
Qed.

Lemma handleSubmit_attachments_only_witness :
  exists c,
    chats (after (handleSubmit Scenario.env1 false
                    {| input := "  "; files := [Scenario.photo] |}
                    ChatStore.init)).1.1
    = [c] /\ trim (cs_title c) = EmptyString.
Proof.
  assert (fresh Sample.uuid1 ChatStore.init) as Hfresh.
  { split; [done |]. intros H. inversion H. }
  assert (env_uuid Scenario.env1 <> EmptyString) as Hne by discriminate.
  assert (files {| input := "  "; files := [Scenario.photo] |} <> []) as Hf
    by discriminate.
  destruct (handleSubmit_attachments_only Scenario.env1
              {| input := "  "; files := [Scenario.photo] |} ChatStore.init
              Hf eq_refl eq_refl Hne Hfresh) as (c & Hc & _ & Htitle & _).
  exists c. split; [exact Hc | exact Htitle].
Defined.

(** X17.  Message ids are the send time in decimal: two sends give their
    messages the same id exactly when [Date.now()] returned the same
    millisecond for both. *)
Theorem submitted_same_id_iff env st env' st' :
  msg_id (UI.submitted env st) = msg_id (UI.submitted env' st')
  <-> env_id_time env = env_id_time env'.
Proof.
  cbn. split; [apply numberToString_inj | by intros ->].
Qed.

Lemma submitted_same_id_iff_witness :
  msg_id (UI.submitted Scenario.env1 Scenario.draft)
  = msg_id (UI.submitted Scenario.env1 UI.cleared).
Proof.
  by apply (submitted_same_id_iff Scenario.env1 Scenario.draft
              Scenario.env1 UI.cleared).
Defined.

Lemma dropIndex_from i from {A : Type} (l : list A) :
  (from <= i)%nat ->
  dropIndex i from l = (take (i - from) l ++ drop (S (i - from)) l)%list.
Proof.
  revert from. induction l as [| x l IH]; intros from Hle.
  - by rewrite take_nil, drop_nil.
  - cbn [dropIndex]. destruct (Nat.eqb_spec from i) as [-> | Hne].
    + cbn [negb]. rewrite Nat.sub_diag. cbn [take drop app].
      clear IH. rewrite drop_0.
      assert (forall k (l' : list A), (i < k)%nat -> dropIndex i k l' = l') as Hpast.
      { intros k l'. revert k. induction l' as [| y l' IH']; intros k Hk; [done |].
        cbn. destruct (Nat.eqb_spec k i); [lia |]. cbn. f_equal. apply IH'. lia. }
      apply Hpast. lia.
    + cbn [negb]. rewrite IH by lia.
      replace (i - from)%nat with (S (i - S from)) by lia. done.
Qed.

(** X18.  Removing the [i]-th attachment takes out that one file: the files
    before it and after it stay, in order; the text is not touched; and an
    index past the end removes nothing. *)
Theorem removeFile_takes_one_out i st :
  files (removeFile i st) = (take i (files st) ++ drop (S i) (files st))%list /\
  input (removeFile i st) = input st /\
  ((i < length (files st))%nat ->
     S (length (files (removeFile i st))) = length (files st)) /\
  ((length (files st) <= i)%nat -> removeFile i st = st).
Proof.
  assert (files (removeFile i st)
          = (take i (files st) ++ drop (S i) (files st))%list) as Heq.
  { unfold removeFile. cbn. rewrite dropIndex_from by lia. by rewrite Nat.sub_0_r. }
  split; [exact Heq |]. split; [done |]. split.
  - intros Hlt. rewrite Heq, length_app, length_take, length_drop. lia.
  - intros Hge. destruct st as [inp fs]. unfold removeFile in *. cbn in *.
    f_equal. rewrite Heq, take_ge, drop_ge by lia. by rewrite app_nil_r.
Qed.

Lemma removeFile_takes_one_out_witness :
  files (removeFile 0 {| input := "hi"; files := [Scenario.photo; Scenario.notes] |})
  = [Scenario.notes].
Proof.
  exact (proj1 (removeFile_takes_one_out 0
                  {| input := "hi"; files := [Scenario.photo; Scenario.notes] |})).
Defined.

End ChatInputMore.

(** ** What holds in every state the interface can reach *)

Section UIFacts.

Import JS ChatList ChatStore Spec.

Lemma registered_elem id l : registered id l <-> id ∈ map cs_id l.
Proof.
  unfold registered. rewrite Exists_exists.
  change (map cs_id l) with (cs_id <$> l). rewrite list_elem_of_fmap.
  split; intros (c & H1 & H2); exists c; done.
Qed.

Lemma ui_invariant_init : UI.invariant init.
Proof.
  split; [constructor |]. split; [constructor |]. split; [done |].
  split; intros k msgs H; cbn in H; by rewrite lookup_empty in H.
Qed.

(** Writing an array under a key keeps the invariants, the registry ids
    being the same or one more, of the key written. *)
Lemma ui_invariant_write (ids : list string) l k msgs a w :
  map cs_id l = (ids ++ map cs_id (chats w))%list ->
  Forall (fun i => i = k) ids -> NoDup (ids ++ map cs_id (chats w))%list ->
  Forall (fun m => msg_role m = user) msgs ->
  (a = Some k \/ (a = activeChatId (chat w) /\ active_known (chat w))) ->
  UI.invariant w ->
  UI.invariant
    {| chats := l;
       chat := {| activeChatId := a;
                  messagesByChatId :=
                    <[k := Messages msgs]> (messagesByChatId (chat w)) |} |}.
Proof.
  intros Hl Hids Hnd Hmsgs Ha (H1 & _ & _ & H4 & H5).
  unfold UI.invariant, UI.only_user_messages, UI.members_under_their_name.
  cbn. rewrite Hl.
  split.
  { apply Forall_app. split.
    - eapply Forall_impl; [exact Hids |]. cbn. intros i ->.
      by rewrite lookup_insert_eq.
    - eapply Forall_impl; [exact H1 |]. cbn. intros i Hi.
      rewrite lookup_insert. by destruct (decide (k = i)). }
  split; [done |].
  split.
  { unfold active_known. cbn. destruct Ha as [-> | [-> Hact]].
    - by rewrite lookup_insert_eq.
    - unfold active_known in Hact. destruct (activeChatId (chat w)); [| done].
      rewrite lookup_insert. by destruct (decide (k = s)). }
  split.
  - intros k' msgs'. rewrite lookup_insert.
    destruct (decide (k = k')); [by intros [= <-] | apply H4].
  - intros k' key. rewrite lookup_insert.
    destruct (decide (k = k')); [done | apply H5].
Qed.

Lemma ui_invariant_createNewChat uuid now w :
  ~ registered uuid (chats w) -> UI.invariant w ->
  UI.invariant (createNewChat uuid now w).1.
Proof.
  intros Hreg Hinv. pose proof Hinv as (_ & H2 & _).
  apply (ui_invariant_write [uuid]);
    [done | by repeat constructor | | constructor | by left | done].
  cbn. constructor; [by rewrite <- registered_elem | done].
Qed.

Lemma ui_invariant_chats l w :
  map cs_id l = map cs_id (chats w) -> UI.invariant w ->
  UI.invariant {| chats := l; chat := chat w |}.
Proof.
  intros He (H1 & H2 & H3 & H4 & H5). unfold UI.invariant. cbn. by rewrite He.
Qed.

Lemma ui_invariant_setActiveChat id w :
  UI.invariant w -> UI.invariant (setActiveChat id w).
Proof.
  intros (H1 & H2 & _ & H4 & H5).
  unfold UI.invariant, UI.only_user_messages, UI.members_under_their_name. cbn.
  split.
  { eapply Forall_impl; [exact H1 |]. cbn. intros i Hi.
    rewrite lookup_insert. by destruct (decide (id = i)). }
  split; [done |].
  split; [unfold active_known; cbn; by rewrite lookup_insert_eq |].
  unfold messagesOr, read.
  split.
  - intros k msgs. rewrite lookup_insert.
    destruct (decide (id = k)) as [-> | _]; [| apply H4].
    destruct (messagesByChatId (chat w) !! k) as [v |] eqn:Hk; cbn.
    + intros [= ->]. by apply (H4 k).
    + destruct (inherited k); cbn; [done | by intros [= <-]].
  - intros k key. rewrite lookup_insert.
    destruct (decide (id = k)) as [-> | _]; [| apply H5].
    destruct (messagesByChatId (chat w) !! k) as [v |] eqn:Hk; cbn.
    + intros [= ->]. by apply (H5 k).
    + destruct (inherited k) eqn:Hinh; cbn; [by intros [= <-] | done].
Qed.

Lemma ui_invariant_addMessage uuid now chatId m w :
  truthy chatId = true -> msg_role m = user ->
  UI.invariant w -> UI.invariant (after (addMessage uuid now chatId m w)).
Proof.
  intros Ht Hrole Hinv. pose proof Hinv as (H1 & H2 & H3 & H4 & H5).
  rewrite addMessage_eq. cbn zeta. rewrite Ht.
  set (l := if _ && _ then _ else _).
  assert (map cs_id l = map cs_id (chats w)) as Hl
    by (subst l; destruct (_ && _); [apply renameChat_ids | done]).
  destruct (messagesOr (chat w) (target uuid chatId)) as [msgs | key] eqn:Hread;
    cbn [after].
  - apply (ui_invariant_write []); [done | constructor | done | | by left | done].
    + apply Forall_app. split; [| by constructor].
      unfold messagesOr, read in Hread.
      destruct (messagesByChatId (chat w) !! target uuid chatId) as [v |] eqn:Hk;
        cbn in Hread.
      * subst v. by apply (H4 _ _ Hk).
      * destruct (inherited (target uuid chatId)); cbn in Hread; [done |].
        by injection Hread as <-.
  - by apply ui_invariant_chats.
Qed.

Lemma ui_invariant_updateMessage chatId id content w w1 :
  updateMessage chatId id content w = Normal w1 ->
  UI.invariant w -> UI.invariant w1.
Proof.
  unfold updateMessage. destruct (truthy chatId); cbn; [| by intros [= <-]].
  set (cid := default EmptyString chatId). unfold read.
  destruct (messagesByChatId (chat w) !! cid) as [[msgs | key] |] eqn:Hc;
    [| done | by destruct (inherited cid)].
  intros [= <-] Hinv. pose proof Hinv as (H1 & H2 & H3 & H4 & H5).
  apply (ui_invariant_write []); [done | constructor | done | | by right | done].
  - specialize (H4 cid msgs Hc). clear Hc.
    induction H4 as [| x l Hx _ IH]; [done |]. cbn. constructor; [| exact IH].
    by destruct (String.eqb (msg_id x) id).
Qed.

Lemma ui_invariant_delete id w :
  UI.invariant w -> UI.invariant (Sidebar.onDelete id w).1.
Proof.
  intros (H1 & H2 & _ & H4 & H5).
  unfold UI.invariant, UI.only_user_messages, UI.members_under_their_name. cbn.
  rewrite deleteChat_ids.
  split.
  { apply Forall_forall. intros i Hi.
    apply list_elem_of_In, filter_In in Hi as [Hi Hne].
    apply negb_true_iff, String.eqb_neq in Hne.
    rewrite lookup_delete_ne by done.
    rewrite Forall_forall in H1. by apply H1, list_elem_of_In. }
  split.
  { clear H1. induction (map cs_id (chats w)) as [| i l IH]; [constructor |].
    apply NoDup_cons in H2 as [Hi Hl]. cbn.
    destruct (negb (String.eqb i id)); [| by apply IH].
    constructor; [| by apply IH].
    intros Hin. apply Hi. by apply list_elem_of_In, filter_In in Hin as [?%list_elem_of_In _]. }
  split; [done |].
  split.
  - intros k msgs Hk. apply (H4 k).
    rewrite lookup_delete in Hk. by destruct (decide (id = k)).
  - intros k key Hk. apply (H5 k).
    rewrite lookup_delete in Hk. by destruct (decide (id = k)).
Qed.

Lemma ui_step_invariant w w' : UI.step w w' -> UI.invariant w -> UI.invariant w'.
Proof.
  destruct 1 as [uuid now w Hu [_ Hf] | answer id w | id w | chatId w
                | env isStreaming st w Hu [_ Hf] | id st w w1 st1 r Hsave
                | a w Ha]; intros Hinv.
  - by apply ui_invariant_createNewChat.
  - unfold Sidebar.onRename. destruct (truthy answer); [| done].
    apply ui_invariant_chats; [apply renameChat_ids | done].
  - by apply ui_invariant_delete.
  - unfold ChatPage.onRoute. destruct (truthy chatId); [| done].
    by apply ui_invariant_setActiveChat.
  - destruct (ChatInput.canSend isStreaming st) eqn:Hc.
    2:{ by rewrite handleSubmit_blocked_eq. }
    destruct (truthy (activeChatId (chat w))) eqn:Ht.
    + rewrite handleSubmit_active_eq by done.
      pose proof (ui_invariant_addMessage (ChatInput.env_uuid' env)
                    (ChatInput.env_created' env) (activeChatId (chat w))
                    (UI.submitted env st) w Ht eq_refl Hinv) as H.
      by destruct (addMessage _ _ _ _ w).
    + rewrite handleSubmit_new_eq by done.
      assert (truthy (Some (ChatInput.env_uuid env)) = true) as Htr
        by (by apply truthy_Some_iff).
      pose proof (ui_invariant_addMessage (ChatInput.env_uuid' env)
                    (ChatInput.env_created' env) (Some (ChatInput.env_uuid env))
                    (UI.submitted env st) _ Htr eq_refl
                    (ui_invariant_createNewChat (ChatInput.env_uuid env)
                       (ChatInput.env_created env) w Hf Hinv)) as H.
      by destruct (addMessage _ _ _ _ _).
  - unfold ChatMessage.handleSave in Hsave.
    destruct (truthy (Some (trim (ChatMessage.editValue st)))); cbn in Hsave;
      [| by injection Hsave as <-].
    destruct (truthy (activeChatId (chat w))); cbn in Hsave;
      [| by injection Hsave as <-].
    destruct (updateMessage _ _ _ w) as [w2 |] eqn:Hu; [| done].
    injection Hsave as <-. by eapply ui_invariant_updateMessage.
  - cbn. apply ui_invariant_init.
Qed.

Lemma ui_reachable_invariant w : UI.reachable w -> UI.invariant w.
Proof.
  induction 1 as [| w w' _ IH Hstep]; [apply ui_invariant_init |].
  by apply (ui_step_invariant w).
Qed.

Lemma after_first_send_reachable : UI.reachable Scenario.after_first_send.
Proof.
  apply (UI.reachable_step init); [constructor |].
  apply UI.step_submit; [discriminate |].
  split; [done |]. intros H. inversion H.
Qed.




(** X20.  The interface never stores an assistant message: in every state it
    can reach, every message of every chat has the role [user]. *)
Theorem ui_reachable_only_user_messages w :
  UI.reachable w -> UI.only_user_messages w.
Proof. by intros (_ & _ & _ & H & _)%ui_reachable_invariant. Qed.

Lemma ui_reachable_only_user_messages_witness :
  UI.only_user_messages Scenario.after_first_send.
Proof.
  exact (ui_reachable_only_user_messages _ after_first_send_reachable).
Defined.




(** X22.  When a save does nothing: [handleSave] leaves the stores and the
    editor as they are, and asks for no resubmission, exactly when the
    edited text is blank or there is no active chat.  In particular a
    message cannot be edited into an empty one. *)
Theorem handleSave_ignored_iff id st w :
  ChatMessage.handleSave id st w = Normal (w, st, None) <->
  trim (ChatMessage.editValue st) = EmptyString \/
  truthy (activeChatId (chat w)) = false.
Proof.
  unfold ChatMessage.handleSave.
  destruct (truthy (Some (trim (ChatMessage.editValue st)))) eqn:Hv; cbn.
  - apply truthy_Some_iff in Hv.
    destruct (truthy (activeChatId (chat w))) eqn:Ht; cbn.
    + split; [| by intros [? | ?]].
      destruct (updateMessage _ _ _ w); [| done]. intros [= _ _].
    + split; [by right | done].
  - split; [| done]. intros _. left.
    destruct (trim (ChatMessage.editValue st)); [done | discriminate Hv].
Qed.

Lemma handleSave_ignored_iff_witness :
  ChatMessage.handleSave "101" {| ChatMessage.isEditing := true;
                                  ChatMessage.editValue := "   " |}
    Scenario.after_first_send
  = Normal (Scenario.after_first_send,
            {| ChatMessage.isEditing := true; ChatMessage.editValue := "   " |},
            None).
Proof.
  apply (handleSave_ignored_iff "101"). by left.
Defined.

(** X23.  What a save stores.  With the non-empty chat id [a] active and a
    message sequence stored for it, and the edited text not blank,
    [handleSave] closes the editor, asks for a resubmission of the trimmed
    text, and gives every message of [a] that carries the id the trimmed
    text as content (which neither starts nor ends with white space); the
    messages keep their number, ids, roles and times, and the other messages
    their content; the registry, and so the chat's title, is not touched. *)
Theorem handleSave_stores_trimmed id st w a msgs :
  trim (ChatMessage.editValue st) <> EmptyString ->
  activeChatId (chat w) = Some a -> a <> EmptyString ->
  messagesByChatId (chat w) !! a = Some (Messages msgs) ->
  let next := trim (ChatMessage.editValue st) in
  exists w1 msgs1,
    ChatMessage.handleSave id st w
    = Normal (w1, {| ChatMessage.isEditing := false;
                     ChatMessage.editValue := ChatMessage.editValue st |},
              Some (next, id)) /\
    messagesByChatId (chat w1) !! a = Some (Messages msgs1) /\
    Forall2 (fun x y =>
               msg_id y = msg_id x /\ msg_role y = msg_role x /\
               msg_timestamp y = msg_timestamp x /\
               msg_content y = if String.eqb (msg_id x) id then next
                               else msg_content x) msgs msgs1 /\
    startsNonWs next /\ endsWs next = false /\
    chats w1 = chats w /\ activeChatId (chat w1) = Some a.
Proof.
  intros Hv Ha Hne Hmsgs next.
  destruct (trim_shape _ Hv) as [Hs He].
  unfold ChatMessage.handleSave. fold next.
  apply truthy_Some_iff in Hv, Hne. fold next in Hv.
  rewrite Hv, Ha, Hne. cbn [negb].
  unfold updateMessage. rewrite Hne. cbn. rewrite (read_own _ _ _ Hmsgs).
  eexists _, _. split; [reflexivity |]. cbn.
  split; [by rewrite lookup_insert_eq |].
  split; [| by rewrite Ha].
  clear Hmsgs. induction msgs as [| x msgs IH]; [constructor |].
  cbn. constructor; [| exact IH].
  by destruct (String.eqb (msg_id x) id).
Qed.

Lemma handleSave_stores_trimmed_witness :
  exists w1,
    ChatMessage.handleSave "101" Scenario.editing Scenario.after_first_send
    = Normal (w1, {| ChatMessage.isEditing := false;
                     ChatMessage.editValue := "  How do I sort a list in place? " |},
              Some ("How do I sort a list in place?"%string, "101"%string)).
Proof.
  assert (trim (ChatMessage.editValue Scenario.editing) <> EmptyString) as Hv
    by discriminate.
  assert (Sample.uuid1 <> EmptyString) as Hne by discriminate.
  destruct (handleSave_stores_trimmed "101" Scenario.editing
              Scenario.after_first_send Sample.uuid1
              [UI.submitted Scenario.env1 Scenario.draft] Hv eq_refl Hne
              ltac:(by vm_compute)) as (w1 & msgs1 & H & _).
  exists w1. exact H.
Defined.

End UIFacts.

(** ** Sidebar, page and sign-out *)

Section NavigationFacts.

Import JS ChatList ChatStore Spec.

(** X24.  Deleting a chat from the sidebar removes it from both stores: the
    registry has no title for it and the mapping no entry; every other chat
    keeps its title and its messages; no chat is active afterwards, so the
    page shows the empty state; and the handler navigates to ["/"]. *)
Theorem onDelete_removes_chat_everywhere id w :
  let w' := (Sidebar.onDelete id w).1 in
  titleOf id (chats w') = None /\
  messagesByChatId (chat w') !! id = None /\
  (forall id', id' <> id ->
     titleOf id' (chats w') = titleOf id' (chats w) /\
     messagesByChatId (chat w') !! id' = messagesByChatId (chat w) !! id') /\
  activeChatId (chat w') = None /\
  ChatPage.isEmpty (chat w') = true /\
  (Sidebar.onDelete id w).2 = Some "/"%string.
Proof.
  cbn zeta. unfold Sidebar.onDelete, clearChat.
  cbn [fst snd chats chat activeChatId messagesByChatId].
  split.
  { pose proof (deleteChat_not_registered id (chats w)) as Hn.
    rewrite registered_titleOf in Hn.
    destruct (titleOf id (deleteChat id (chats w))); [| done]. exfalso. eauto. }
  split; [apply lookup_delete_eq |].
  split; [| done].
  intros id' Hne. split; [| by apply lookup_delete_ne].
  induction (chats w) as [| c l IH]; [done |].
  rewrite deleteChat_cons, (titleOf_cons id' c l).
  destruct (String.eqb_spec (cs_id c) id) as [He | Hc].
  - destruct (String.eqb_spec (cs_id c) id'); [congruence | exact IH].
  - rewrite titleOf_cons. by rewrite IH.
Qed.

Lemma onDelete_removes_chat_everywhere_witness :
  titleOf "b" (chats (Sidebar.onDelete "a" Sample.two_chats).1) = Some "New Chat"%string.
Proof.
  assert ("b"%string <> "a"%string) as Hne by discriminate.
  destruct (onDelete_removes_chat_everywhere "a" Sample.two_chats)
    as (_ & _ & Hother & _).
  rewrite (proj1 (Hother "b"%string Hne)). reflexivity.
Defined.

(** X25.  Opening a chat by its address.  For a non-empty route parameter
    [id], [id] becomes the active chat and gets an entry in the mapping,
    which holds what the read of [id] gave before, and the registry is not
    touched, so an id the registry does not hold gets an entry without a
    registry entry.  When [id] had a message sequence, the page shows it
    (the empty state if it has no message); when [id] had no entry and does
    not name an inherited property, it gets the empty sequence and the page
    shows the empty state; when [id] had no entry and names a member of
    [Object.prototype], that member is stored.  Without a parameter, or
    with an empty one, nothing changes. *)
Theorem onRoute_shows_history id w :
  id <> EmptyString ->
  let w' := ChatPage.onRoute (Some id) w in
  activeChatId (chat w') = Some id /\
  (forall k, k <> id ->
     messagesByChatId (chat w') !! k = messagesByChatId (chat w) !! k) /\
  chats w' = chats w /\
  (forall msgs,
     messagesByChatId (chat w) !! id = Some (Messages msgs) ->
     messagesByChatId (chat w') !! id = Some (Messages msgs) /\
     ChatPage.render (chat w')
     = Normal (match msgs with
               | [] => ChatPage.EmptyState
               | _ => ChatPage.MessageList msgs
               end)) /\
  (messagesByChatId (chat w) !! id = None -> inherited id = false ->
     messagesByChatId (chat w') !! id = Some (Messages []) /\
     ChatPage.render (chat w') = Normal ChatPage.EmptyState) /\
  (messagesByChatId (chat w) !! id = None -> inherited id = true ->
     messagesByChatId (chat w') !! id = Some (Member id)) /\
  ChatPage.onRoute None w = w /\
  ChatPage.onRoute (Some EmptyString) w = w.
Proof.
  intros Hne. apply truthy_Some_iff in Hne. cbn zeta.
  assert (ChatPage.onRoute (Some id) w = setActiveChat id w) as ->
    by (unfold ChatPage.onRoute; by rewrite Hne).
  assert (forall v, messagesOr (chat w) id = v ->
            messagesByChatId (chat (setActiveChat id w)) !! id = Some v /\
            ChatPage.messages (chat (setActiveChat id w)) = v) as Hstored.
  { intros v Hv. unfold setActiveChat. cbn [chat messagesByChatId].
    rewrite Hv. split; [by rewrite lookup_insert_eq |].
    unfold ChatPage.messages. cbn [activeChatId]. rewrite Hne.
    apply messagesOr_own. cbn. by rewrite lookup_insert_eq. }
  split; [done |].
  split; [intros k Hk; cbn; by rewrite lookup_insert_ne |].
  split; [done |].
  split; [| split; [| split; [| done]]].
  - intros msgs Hm.
    destruct (Hstored _ (messagesOr_own _ _ _ Hm)) as [H1 H2].
    split; [exact H1 |].
    unfold ChatPage.render, ChatPage.isEmpty. rewrite H2. by destruct msgs.
  - intros Hnone Hinh.
    destruct (Hstored _ (messagesOr_missing _ _ Hnone Hinh)) as [H1 H2].
    split; [exact H1 |].
    unfold ChatPage.render, ChatPage.isEmpty. by rewrite H2.
  - intros Hnone Hinh.
    by destruct (Hstored _ (messagesOr_inherited _ _ Hnone Hinh)).
Qed.

Lemma onRoute_shows_history_witness :
  ChatPage.render (chat (ChatPage.onRoute (Some "ghost") Sample.two_chats))
    = Normal ChatPage.EmptyState /\
  ~ registered "ghost" (chats (ChatPage.onRoute (Some "ghost") Sample.two_chats)).
Proof.
  assert ("ghost"%string <> EmptyString) as Hne by discriminate.
  destruct (onRoute_shows_history "ghost" Sample.two_chats Hne)
    as (_ & _ & Hc & _ & Hnew & _).
  split; [apply Hnew; by vm_compute |].
  rewrite Hc. intros H. unfold registered in H. cbn in H.
  repeat (apply Exists_cons in H as [H | H]; [discriminate H |]).
  inversion H.
Defined.

(** Opened by the address ["/c/constructor"], the page does not render:
    what is stored for the chat is the inherited [Object], whose [length]
    is 1, so [ChatWindow] is shown and throws on [messages.map]. *)
Lemma onRoute_constructor_breaks_the_page :
  ChatPage.render (chat (ChatPage.onRoute (Some "constructor") init))
  = Throw TypeError.
Proof. by vm_compute. Qed.

(** X26.  Signing out leaves nothing behind: whatever the stores, the account and
    the stored token were, after [logout] the registry and the mapping are
    empty, no chat is active, no user and no token are held, the
    ["auth_token"] item is gone and the browser is sent to ["/login"].  A
    token stored by [setAuth] does not survive it. *)
Theorem logout_leaves_nothing a :
  world (Auth.logout a) = init /\
  auth_user (Auth.logout a) = None /\
  auth_token (Auth.logout a) = None /\
  storage_auth_token (Auth.logout a) = None /\
  location_href (Auth.logout a) = "/login"%string /\
  ChatPage.isEmpty (chat (world (Auth.logout a))) = true /\
  (forall u token, Auth.logout (Auth.setAuth u token a) = Auth.logout a) /\
  (forall a', Auth.logout a' = Auth.logout a).
Proof. by repeat split. Qed.

End NavigationFacts.

(** ** The search dialog *)

Section SearchModalFacts.

Import JS Spec Search SearchModal.
Local Open Scope Z_scope.

Lemma at_index_Some {A : Type} (l : list A) i x :
  at_index l i = Some x <-> 0 <= i /\ l !! Z.to_nat i = Some x.
Proof.
  unfold at_index. destruct (Z.ltb_spec i 0); split; try done.
  - intros [? _]. lia.
  - intros [_ ?]. done.
Qed.

Lemma at_index_None {A : Type} (l : list A) i :
  at_index l i = None <-> i < 0 \/ Z.of_nat (length l) <= i.
Proof.
  unfold at_index. destruct (Z.ltb_spec i 0).
  - split; [by left | done].
  - rewrite lookup_ge_None. split; [intros ?; right; lia | intros [? | ?]; lia].
Qed.

(** X27.  The arrow keys keep the selection on a result: when there are results
    and the selected index is one of theirs, it still is after [ArrowDown]
    and after [ArrowUp]; the keys move it by one, except that [ArrowDown]
    stays on the last result and [ArrowUp] on the first.  Neither key
    changes the query or navigates. *)
Theorem arrow_keys_stay_in_range st chats :
  let n := Z.of_nat (length (results st chats)) in
  0 <= selectedIndex st < n ->
  let down := handleKeyDown ArrowDown st chats in
  let up := handleKeyDown ArrowUp st chats in
  0 <= selectedIndex down.1 < n /\
  0 <= selectedIndex up.1 < n /\
  selectedIndex down.1
    = (if selectedIndex st =? n - 1 then selectedIndex st else selectedIndex st + 1) /\
  selectedIndex up.1
    = (if selectedIndex st =? 0 then selectedIndex st else selectedIndex st - 1) /\
  query down.1 = query st /\ query up.1 = query st /\
  down.2 = None /\ up.2 = None.
Proof.
  intros n Hr. cbn. fold n.
  destruct (Z.eqb_spec (selectedIndex st) (n - 1)),
           (Z.eqb_spec (selectedIndex st) 0); repeat split; lia.
Qed.

Lemma arrow_keys_stay_in_range_witness :
  selectedIndex
    (handleKeyDown ArrowDown Scenario.searching
       [Sample.banana; Sample.apple; Sample.cabbage]).1 = 1.
Proof.
  destruct (arrow_keys_stay_in_range Scenario.searching
              [Sample.banana; Sample.apple; Sample.cabbage])
    as (_ & _ & H & _); [by vm_compute |].
  rewrite H. reflexivity.
Defined.

(** X28.  With no results the selection falls off the list: [ArrowDown] then
    sets the selected index to -1, whatever non-negative index was selected;
    [Enter] on that selection does nothing; and [ArrowUp] brings the index
    back to 0. *)
Theorem arrow_down_without_results st chats :
  results st chats = [] -> 0 <= selectedIndex st ->
  let st1 := (handleKeyDown ArrowDown st chats).1 in
  selectedIndex st1 = -1 /\
  handleKeyDown Enter st1 chats = (st1, None) /\
  selectedIndex (handleKeyDown ArrowUp st1 chats).1 = 0.
Proof.
  intros Hres Hi. cbn zeta. cbn [handleKeyDown fst selectedIndex].
  rewrite Hres. cbn [length]. change (Z.of_nat 0) with 0.
  assert (Z.min (selectedIndex st + 1) (0 - 1) = -1) as -> by lia.
  split; [done |]. split; [| done].
  unfold results. cbn [query]. unfold results in Hres. by rewrite Hres.
Qed.

Lemma arrow_down_without_results_witness :
  selectedIndex
    (handleKeyDown ArrowDown
       {| isSearchOpen := true; query := "zebra"; selectedIndex := 0 |}
       [Sample.banana; Sample.apple; Sample.cabbage]).1 = -1.
Proof.
  apply (arrow_down_without_results
           {| isSearchOpen := true; query := "zebra"; selectedIndex := 0 |}
           [Sample.banana; Sample.apple; Sample.cabbage]).
  - by vm_compute.
  - done.
Defined.

(** X29.  [Enter] opens the selected result and nothing else: when the selected
    index is that of a result, the dialog closes, the query is emptied and
    the handler navigates to that chat; when it is negative or past the
    last result, nothing happens. *)
Theorem enter_opens_selected st chats :
  (forall c, 0 <= selectedIndex st ->
     results st chats !! Z.to_nat (selectedIndex st) = Some c ->
     handleKeyDown Enter st chats
     = ({| isSearchOpen := false; query := EmptyString;
           selectedIndex := selectedIndex st |},
        Some ("/c/" ++ cs_id c)%string)) /\
  (selectedIndex st < 0 \/
   Z.of_nat (length (results st chats)) <= selectedIndex st ->
   handleKeyDown Enter st chats = (st, None)).
Proof.
  split.
  - intros c Hi Hc. cbn.
    by rewrite (proj2 (at_index_Some _ _ c) (conj Hi Hc)).
  - intros Hout. cbn. by rewrite (proj2 (at_index_None _ _) Hout).
Qed.

Lemma enter_opens_selected_witness :
  handleKeyDown Enter
    {| isSearchOpen := true; query := "a"; selectedIndex := 3 |}
    [Sample.banana; Sample.apple; Sample.cabbage]
  = ({| isSearchOpen := true; query := "a"; selectedIndex := 3 |}, None).
Proof.
  apply (enter_opens_selected
           {| isSearchOpen := true; query := "a"; selectedIndex := 3 |}
           [Sample.banana; Sample.apple; Sample.cabbage]).
  right. by vm_compute.
Defined.

(** X30.  [Enter] on the first result opens a best match: for a query that is
    not blank and matches something, with the selection on index 0, the
    handler navigates to a chat of the list whose score no chat of the list
    exceeds. *)
Theorem enter_on_first_opens_best_match st chats :
  trim (query st) <> EmptyString ->
  selectedIndex st = 0 ->
  results st chats <> [] ->
  let score := fun c =>
    scoreMatch (normalize (cs_title c)) (split_ws (normalize (query st))) in
  exists c,
    (handleKeyDown Enter st chats).2 = Some ("/c/" ++ cs_id c)%string /\
    c ∈ chats /\ 0 < score c /\
    forall c', c' ∈ chats -> score c' <= score c.
Proof.
  intros Hq Hi Hres score.
  destruct (results st chats) as [| c rest] eqn:Hr; [done |].
  destruct (searchChats_head_best (query st) chats c rest Hq Hr)
    as (Hpos & Hin & Hbest).
  exists c. split; [| done].
  cbn. unfold at_index. rewrite Hi, Hr. done.
Qed.

Lemma enter_on_first_opens_best_match_witness :
  exists c,
    (handleKeyDown Enter Scenario.searching
       [Sample.banana; Sample.apple; Sample.cabbage]).2
    = Some ("/c/" ++ cs_id c)%string /\
    c ∈ [Sample.banana; Sample.apple; Sample.cabbage].
Proof.
  assert (trim (query Scenario.searching) <> EmptyString) as Hq by discriminate.
  assert (results Scenario.searching
            [Sample.banana; Sample.apple; Sample.cabbage] <> []) as Hr
    by (by vm_compute).
  destruct (enter_on_first_opens_best_match Scenario.searching
              [Sample.banana; Sample.apple; Sample.cabbage] Hq eq_refl Hr)
    as (c & Hnav & Hin & _).
  by exists c.
Defined.

End SearchModalFacts.
